(** * more_itertools: chunked, first, peekable, collate

    A shallow embedding of [more_itertools/__init__.py] (Python 2) and the
    properties of its four utilities.

    Python values that the code only moves around are elements of an
    arbitrary type.  Iterators are modelled by the list of the elements
    they have not produced yet; a method that mutates its receiver is a
    function from the receiver's state to an outcome and the new state;
    exceptions are outcomes. *)

From Stdlib Require Import ZArith Lia.
From stdpp Require Import base option list sorting.

Set Default Proof Using "Type".
Open Scope Z_scope.

(** ** Outcomes of calls *)

Inductive exn : Type :=
  | StopIteration
  | ValueError
  | IndexError
  | AttributeError
  | OverflowError
  | ReferenceError.

Inductive outcome (T : Type) : Type :=
  | Return (v : T)
  | Raise (e : exn).
Arguments Return {T} v.
Arguments Raise {T} e.

Definition returns {T} (o : outcome T) : bool :=
  match o with Return _ => true | Raise _ => false end.

(** A method of an object with state [S] that returns a [T]. *)
Definition method (S T : Type) : Type := S → outcome T * S.

(** Call the method [m] [k] times in a row: the outcomes, in order, and the
    state after the last call. *)
Fixpoint call_times {S T} (m : method S T) (k : nat) (s : S)
  : list (outcome T) * S :=
  match k with
  | O => ([], s)
  | S k' => let '(o, s') := m s in
            let '(os, s'') := call_times m k' s' in
            (o :: os, s'')
  end.

(** ** Iterators

    [it.next()] on an iterator over a finite sequence: the head of what is
    left, or StopIteration once nothing is left (and from then on). *)
Definition it_next {T} : method (list T) T := λ it,
  match it with
  | [] => (Raise StopIteration, [])
  | x :: it' => (Return x, it')
  end.

(** ** The module's private sentinel

    [_marker = object()] is one more Python object: a value is either the
    sentinel or a value of the caller's. *)
Inductive value (A : Type) : Type :=
  | _marker
  | Val (a : A).
Arguments _marker {A}.
Arguments Val {A} a.

(** [x is _marker] *)
Definition is_marker {A} (x : value A) : bool :=
  match x with _marker => true | Val _ => false end.

(** ** first *)

Section First.
Context {A : Type}.

(** [first(iterable, default=_marker)], on the iterator [iter(iterable)];
    a call without [default] is [first iterable _marker]. *)
Definition first (default : value A) : method (list (value A)) (value A) :=
  λ iterable,
  match it_next iterable with
  | (Return x, it') => (Return x, it')
  | (Raise StopIteration, it') =>
      if is_marker default then (Raise ValueError, it')
      else (Return default, it')
  | (Raise e, it') => (Raise e, it')
  end.
End First.

(** ** peekable *)

Section Peekable.
Context {T : Type}.

(** The instance attributes: [_it], and [_peek] when it is set
    ([hasattr(self, '_peek')] is [is_Some (_peek self)]). *)
Record peekable : Type := Peekable { _it : list T; _peek : option T }.

(** [peekable(iterable)] *)
Definition __init__ (iterable : list T) : peekable :=
  {| _it := iterable; _peek := None |}.

Definition peek : method peekable T := λ self,
  match _peek self with
  | None =>
      match it_next (_it self) with
      | (Return x, it') => (Return x, {| _it := it'; _peek := Some x |})
      | (Raise e, it') => (Raise e, {| _it := it'; _peek := None |})
      end
  | Some x => (Return x, self)
  end.

(** [del self._peek] *)
Definition del_peek : method peekable () := λ self,
  match _peek self with
  | Some _ => (Return (), {| _it := _it self; _peek := None |})
  | None => (Raise AttributeError, self)
  end.

Definition next : method peekable T := λ self,
  match peek self with
  | (Return ret, self') =>
      match del_peek self' with
      | (Return _, self'') => (Return ret, self'')
      | (Raise e, self'') => (Raise e, self'')
      end
  | (Raise e, self') => (Raise e, self')
  end.

Definition __nonzero__ : method peekable bool := λ self,
  match peek self with
  | (Return _, self') => (Return true, self')
  | (Raise StopIteration, self') => (Return false, self')
  | (Raise e, self') => (Raise e, self')
  end.

(** What the wrapper will still hand out: the cached element, if any, and
    then what is left in the underlying iterator.  This is all a caller
    can observe of a wrapper (lemmas [peek_observable],
    [next_observable] and [nonzero_observable] below). *)
Definition pending (self : peekable) : list T :=
  match _peek self with
  | Some x => x :: _it self
  | None => _it self
  end.

(** The description of [next] in words: do a [peek] if nothing is
    cached, then clear the cache and return the value. *)
Definition next_described : method peekable T := λ self,
  let '(o, self') :=
    match _peek self with
    | Some x => (Return x, self)
    | None => peek self
    end in
  match o with
  | Return x => (Return x, {| _it := _it self'; _peek := None |})
  | Raise e => (Raise e, self')
  end.

(** A caller's sequence of calls, each one [peek()] ([true]) or [next()]
    ([false]): the outcomes, in order, and the wrapper afterwards. *)
Fixpoint calls (which : list bool) (self : peekable)
  : list (outcome T) * peekable :=
  match which with
  | [] => ([], self)
  | w :: which' =>
      let '(o, self') := (if w then peek else next) self in
      let '(os, self'') := calls which' self' in
      (o :: os, self'')
  end.

(** A wrapper is its own iterator. *)
Definition __iter__ : method peekable peekable := λ self, (Return self, self).

(** A read cursor on a list, the reference for a wrapper: [true] looks at
    the head, [false] looks at it and moves past it; both fail at the
    end. *)
Fixpoint cursor (which : list bool) (l : list T)
  : list (outcome T) * list T :=
  match which with
  | [] => ([], l)
  | w :: which' =>
      let o := match l with
               | [] => Raise StopIteration
               | x :: _ => Return x
               end in
      let '(os, l') := cursor which' (if w then l else tail l) in
      (o :: os, l')
  end.
End Peekable.
Arguments peekable T : clear implicits.

(** Case analysis on a wrapper: cached or not, iterator exhausted or not. *)
Ltac peekable_cases self := destruct self as [[|? ?] [?|]].


(** ** Generators

    A generator object is a state and a resume function: a [method] that
    returns the next yielded value, or raises StopIteration when the body
    ends.  [list_of] is [list(gen)]: it resumes the generator until it
    raises, collects what was yielded and lets any exception other than
    StopIteration through.  [None] only when [fuel] resumptions were not
    enough to see the end. *)
Fixpoint list_of {S T} (resume : method S T) (fuel : nat) (s : S)
  : option (outcome (list T) * S) :=
  match fuel with
  | O => None
  | S fuel' =>
      match resume s with
      | (Return x, s') =>
          match list_of resume fuel' s' with
          | Some (Return xs, s'') => Some (Return (x :: xs), s'')
          | r => r
          end
      | (Raise StopIteration, s') => Some (Return [], s')
      | (Raise e, s') => Some (Raise e, s')
      end
  end.

(** [list(p)] for a wrapper [p]: [iter(p)] is [p], which is then asked for
    its [next()] until it raises. *)
Definition list_peekable {T} (self : peekable T)
  : option (outcome (list T) * peekable T) :=
  match __iter__ self with
  | (Return it, _) => list_of next (S (length (pending it))) it
  | (Raise e, self') => Some (Raise e, self')
  end.

(** [first(iterable, default)] where [iter(iterable)] is any iterator
    object, given by its state and its [next] method; [first] above is
    the case of an iterator over a sequence. *)
Definition first_from {A S} (next_of : method S (value A))
    (default : value A) : method S (value A) := λ it,
  match next_of it with
  | (Return x, it') => (Return x, it')
  | (Raise StopIteration, it') =>
      if is_marker default then (Raise ValueError, it')
      else (Return default, it')
  | (Raise e, it') => (Raise e, it')
  end.

(** ** chunked *)

Section Chunked.
Context {A : Type}.

(** [itertools.izip_longest] of Python 2.7 is the one piece of library code
    that [chunked] relies on; it is modelled after its C implementation
    ([izip_longest_next] in itertoolsmodule.c), for the call that
    [chunked] makes: [n] references to one and the same iterator object
    ([[iter(iterable)] * n], unpacked).  The object keeps, for each
    position of the tuples it builds, whether that position still holds
    the iterator ([true]) or has been replaced by the fill value
    ([false]), and the number [numactive] of positions not yet replaced.
    The iterator itself belongs to the caller and is passed along: an
    element read for one position is gone for the next. *)
Record izip_longest : Type :=
  Izip { ittuple : list bool; numactive : nat }.

(** The bounds of [Py_ssize_t], the type of sizes and indices (a 64-bit
    build). *)
Definition PY_SSIZE_T_MAX : Z := 2 ^ 63 - 1.
Definition PY_SSIZE_T_MIN : Z := - 2 ^ 63.

(** The number of copies in [[iter(iterable)] * n].  The interpreter first
    converts [n] to an index and raises OverflowError when it does not
    fit [Py_ssize_t]; a count below zero is no copy at all.  Memory has
    no bound in this model: an allocation never fails, so there is no
    MemoryError for a count that fits. *)
Definition list_repeat (n : Z) : outcome nat :=
  if (n <? PY_SSIZE_T_MIN) || (PY_SSIZE_T_MAX <? n) then Raise OverflowError
  else Return (Z.to_nat n).

(** [izip_longest] called on [count] references to the iterator: all
    positions hold it. *)
Definition izip_longest_new (count : nat) : izip_longest :=
  {| ittuple := replicate count true; numactive := count |}.

(** Put item [x] in front of the tuple, and [slot] in front of the
    positions, that the rest of the loop produces. *)
Definition with_item (x : value A) (slot : bool)
    (r : outcome (list (value A)) * (list bool * nat * list (value A)))
  : outcome (list (value A)) * (list bool * nat * list (value A)) :=
  match r with
  | (Return xs, (slots, na, it)) => (Return (x :: xs), (slot :: slots, na, it))
  | (Raise e, (slots, na, it)) => (Raise e, (slot :: slots, na, it))
  end.

(** The loop of the library's [next] over the positions of the tuple: a
    cleared position gets the fill value; a position whose iterator is
    exhausted is cleared and gets the fill value, unless it was the last
    active one, which ends the iteration. *)
Fixpoint izip_longest_fill (fillvalue : value A) (slots : list bool)
    (na : nat) (it : list (value A))
  : outcome (list (value A)) * (list bool * nat * list (value A)) :=
  match slots with
  | [] => (Return [], ([], na, it))
  | false :: slots' =>
      with_item fillvalue false (izip_longest_fill fillvalue slots' na it)
  | true :: slots' =>
      match it_next it with
      | (Return x, it') =>
          with_item x true (izip_longest_fill fillvalue slots' na it')
      | (Raise StopIteration, it') =>
          if Nat.eqb (Nat.pred na) 0
          then (Raise StopIteration, (true :: slots', O, it'))
          else with_item fillvalue false
                 (izip_longest_fill fillvalue slots' (Nat.pred na) it')
      | (Raise e, it') => (Raise e, (true :: slots', O, it'))
      end
  end.

(** The library's [next]: nothing for a tuple of no positions, nothing
    once no position is active. *)
Definition izip_longest_next (fillvalue : value A)
  : method (izip_longest * list (value A)) (list (value A)) := λ '(lz, it),
  if Nat.eqb (length (ittuple lz)) 0 then (Raise StopIteration, (lz, it))
  else if Nat.eqb (numactive lz) 0 then (Raise StopIteration, (lz, it))
  else
    let '(r, (slots, na, it')) :=
      izip_longest_fill fillvalue (ittuple lz) (numactive lz) it in
    (r, ({| ittuple := slots; numactive := na |}, it')).

(** The positions that still hold the iterator; [numactive] counts them. *)
Definition active (slots : list bool) : nat :=
  length (filter (λ b, b = true) slots).

(** The frame of a [chunked(iterable, n)] generator: not started yet,
    parked at the [yield] inside the [for] loop, or finished. *)
Inductive chunked_frame : Type :=
  | ChunkedCreated (n : Z)
  | ChunkedSuspended (lz : izip_longest)
  | ChunkedFinished.

(** One turn of the [for] loop, up to the [yield]. *)
Definition chunked_loop (lz : izip_longest) (it : list (value A))
  : outcome (list (value A)) * (chunked_frame * list (value A)) :=
  match izip_longest_next _marker (lz, it) with
  | (Return group, (lz', it')) =>
      match last group with
      | None => (Raise IndexError, (ChunkedFinished, it'))
      | Some x =>
          let group' :=
            if is_marker x
            then filter (λ x, is_marker x = false) group
            else group in
          (Return group', (ChunkedSuspended lz', it'))
      end
  | (Raise e, (_, it')) => (Raise e, (ChunkedFinished, it'))
  end.

(** Resuming the generator [chunked(iterable, n)]; the second component of
    the state is the iterator [iter(iterable)]. *)
Definition chunked_next
  : method (chunked_frame * list (value A)) (list (value A)) := λ '(f, it),
  match f with
  | ChunkedCreated n =>
      match list_repeat n with
      | Return count => chunked_loop (izip_longest_new count) it
      | Raise e => (Raise e, (ChunkedFinished, it))
      end
  | ChunkedSuspended lz => chunked_loop lz it
  | ChunkedFinished => (Raise StopIteration, (ChunkedFinished, it))
  end.

(** [list(chunked(iterable, n))], with what is left of the iterator. *)
Definition chunked (iterable : list (value A)) (n : Z)
  : option (outcome (list (list (value A))) * (chunked_frame * list (value A))) :=
  list_of chunked_next (S (length iterable)) (ChunkedCreated n, iterable).
End Chunked.

(** ** collate *)

(** Objects that a list refers to live in a heap; a reference is the
    position of the object in the heap.  [call m p] is [p.m()]. *)
Definition call {S T} (m : method S T) (p : nat) : method (list S) T :=
  λ heap,
  match heap !! p with
  | Some self => let '(r, self') := m self in (r, <[p := self']> heap)
  | None => (Raise ReferenceError, heap)
  end.

Section Collate.
Context {T : Type}.

(** The keyword arguments, and the memory address of the wrapper created
    for each input: instances of [peekable] define no comparison, so Python 2
    orders them by address. *)
Variable key : T → Z.
Variable reverse : bool.
Variable address : nat → Z.

(** [[p for p in peekables if p]]: [if p] calls [p.__nonzero__()]. *)
Fixpoint kill_empties (peekables : list nat)
  : method (list (peekable T)) (list nat) := λ heap,
  match peekables with
  | [] => (Return [], heap)
  | p :: rest =>
      match call __nonzero__ p heap with
      | (Return b, heap') =>
          match kill_empties rest heap' with
          | (Return live, heap'') =>
              (Return (if b then p :: live else live), heap'')
          | (Raise e, heap'') => (Raise e, heap'')
          end
      | (Raise e, heap') => (Raise e, heap')
      end
  end.

(** [((key(p.peek()), p) for p in peekables)], run to its end.  A
    StopIteration that escapes from the body of a generator expression
    ends it like any generator. *)
Fixpoint heads (peekables : list nat)
  : method (list (peekable T)) (list (Z * nat)) := λ heap,
  match peekables with
  | [] => (Return [], heap)
  | p :: rest =>
      match call peek p heap with
      | (Return x, heap') =>
          match heads rest heap' with
          | (Return hs, heap'') => (Return ((key x, p) :: hs), heap'')
          | (Raise e, heap'') => (Raise e, heap'')
          end
      | (Raise StopIteration, heap') => (Return [], heap')
      | (Raise e, heap') => (Raise e, heap')
      end
  end.

(** [a < b] on the tuples [(key, p)]: the first components decide unless
    they are equal; then the wrappers do, by address, unless they are the
    same object. *)
Definition tuple_lt (a b : Z * nat) : bool :=
  if a.1 =? b.1 then
    if Nat.eqb a.2 b.2 then false else address a.2 <? address b.2
  else a.1 <? b.1.

(** The loops of the builtins [min] and [max]: the first extremal item is
    kept. *)
Fixpoint min_from (cur : Z * nat) (items : list (Z * nat)) : Z * nat :=
  match items with
  | [] => cur
  | item :: items' =>
      min_from (if tuple_lt item cur then item else cur) items'
  end.

Fixpoint max_from (cur : Z * nat) (items : list (Z * nat)) : Z * nat :=
  match items with
  | [] => cur
  | item :: items' =>
      max_from (if tuple_lt cur item then item else cur) items'
  end.

(** [min_or_max = max if reverse else min]; both raise ValueError on an
    empty sequence. *)
Definition min_or_max (items : list (Z * nat)) : outcome (Z * nat) :=
  match items with
  | [] => Raise ValueError
  | item :: items' =>
      Return (if reverse then max_from item items' else min_from item items')
  end.

(** The frame of a [collate] generator: not started
    yet, parked at the [yield] with the wrappers and the list [peekables]
    as they are there, or finished. *)
Inductive collate_frame : Type :=
  | CollateCreated (iterables : list (list T))
  | CollateSuspended (heap : list (peekable T)) (peekables : list nat)
  | CollateFinished.

(** From a line that kills the empties (127 or 131) to the [yield]: the
    value yielded, together with the reference [p] that was selected. *)
Definition collate_loop (heap : list (peekable T)) (peekables : list nat)
  : outcome (nat * T) * collate_frame :=
  match kill_empties peekables heap with
  | (Return [], _) => (Raise StopIteration, CollateFinished)
  | (Return peekables', heap1) =>
      match heads peekables' heap1 with
      | (Return items, heap2) =>
          match min_or_max items with
          | Return (_, p) =>
              match call next p heap2 with
              | (Return x, heap3) =>
                  (Return (p, x), CollateSuspended heap3 peekables')
              | (Raise e, _) => (Raise e, CollateFinished)
              end
          | Raise e => (Raise e, CollateFinished)
          end
      | (Raise e, _) => (Raise e, CollateFinished)
      end
  | (Raise e, _) => (Raise e, CollateFinished)
  end.

(** One round of the generator: the wrapper of the [i]-th input is object
    [i] of the heap. *)
Definition collate_round : method collate_frame (nat * T) := λ f,
  match f with
  | CollateCreated iterables =>
      collate_loop (__init__ <$> iterables) (seq 0 (length iterables))
  | CollateSuspended heap peekables => collate_loop heap peekables
  | CollateFinished => (Raise StopIteration, CollateFinished)
  end.

(** A generator that has not started is, for what follows, one parked
    before line 127 with a fresh wrapper for each input. *)
Definition started (iterables : list (list T)) : collate_frame :=
  CollateSuspended (__init__ <$> iterables) (seq 0 (length iterables)).

(** Resuming the generator: the caller gets the value only. *)
Definition collate_next : method collate_frame T := λ f,
  match collate_round f with
  | (Return (_, x), f') => (Return x, f')
  | (Raise e, f') => (Raise e, f')
  end.

(** [list(...)] of the generator [collate] makes for [iterables], [key]
    and [reverse] *)
Definition collate (iterables : list (list T))
  : option (outcome (list T) * collate_frame) :=
  list_of collate_next (S (length (concat iterables)))
    (CollateCreated iterables).

(** The same run, with the selected wrapper next to each value. *)
Definition collate_trace (iterables : list (list T))
  : option (outcome (list (nat * T)) * collate_frame) :=
  list_of collate_round (S (length (concat iterables)))
    (CollateCreated iterables).

(** What object [i] of the heap has not handed out yet (nothing when
    there is no such object). *)
Definition pending_of (heap : list (peekable T)) (i : nat) : list T :=
  default [] (pending <$> heap !! i).

(** Object [i] of the heap has its next element cached. *)
Definition cached (heap : list (peekable T)) (i : nat) : Prop :=
  ∃ self, heap !! i = Some self ∧ is_Some (_peek self).

(** What the frames of a generator made for [n] inputs have in common:
    one wrapper for each input; the list [peekables] refers to wrappers in
    the order of the inputs, each at most once; and a wrapper that it does
    not refer to has nothing pending. *)
Definition frame_ok (n : nat) (f : collate_frame) : Prop :=
  match f with
  | CollateCreated iterables => length iterables = n
  | CollateSuspended heap peekables =>
      length heap = n
      ∧ peekables `sublist_of` seq 0 n
      ∧ ∀ i, i ∉ peekables → pending_of heap i = []
  | CollateFinished => True
  end.

(** What the wrapper of input [i] has not handed out yet. *)
Definition remaining (f : collate_frame) (i : nat) : list T :=
  match f with
  | CollateCreated iterables => default [] (iterables !! i)
  | CollateSuspended heap _ => pending_of heap i
  | CollateFinished => []
  end.

(** The live set with which the next round works: the list [peekables]
    as line 127 or 131 leaves it when the generator is resumed. *)
Definition live (f : collate_frame) : outcome (list nat) :=
  match f with
  | CollateCreated iterables =>
      (kill_empties (seq 0 (length iterables)) (__init__ <$> iterables)).1
  | CollateSuspended heap peekables => (kill_empties peekables heap).1
  | CollateFinished => Return []
  end.

(** The frames a generator goes through. *)
Inductive reachable (iterables : list (list T)) : collate_frame → Prop :=
  | reachable_created : reachable iterables (CollateCreated iterables)
  | reachable_round f r f' :
      reachable iterables f →
      collate_round f = (r, f') →
      reachable iterables f'.

(** Sorted by [key] in the direction [reverse] asks for. *)
Definition in_order (a b : T) : Prop :=
  if reverse then key b ≤ key a else key a ≤ key b.
End Collate.

(** ** Images under a function on the elements

    For the statement that [collate] uses [key] to compare and for nothing
    else: the outcome, the wrapper and the frame one gets by applying a
    function [g] to every element they hold. *)
Definition outcome_map {T U} (g : T → U) (o : outcome T) : outcome U :=
  match o with
  | Return x => Return (g x)
  | Raise e => Raise e
  end.

Definition peekable_map {T U} (g : T → U) (self : peekable T) : peekable U :=
  {| _it := g <$> _it self; _peek := g <$> _peek self |}.

Definition frame_map {T U} (g : T → U) (f : collate_frame (T:=T))
  : collate_frame (T:=U) :=
  match f with
  | CollateCreated iterables => CollateCreated (fmap (M:=list) g <$> iterables)
  | CollateSuspended heap peekables =>
      CollateSuspended (peekable_map g <$> heap) peekables
  | CollateFinished => CollateFinished
  end.

(** * Properties *)

(** ** first *)

(** C3: [first] returns the first element of a non-empty source, the
    default that was supplied when the source is empty, and raises
    ValueError (the EmptyIterable error) when the source is empty and no
    default was supplied; it takes at most one element from the source. *)
Theorem first_or_default {A : Type} :
  (∀ (default x : value A) rest,
      first default (x :: rest) = (Return x, rest))
  ∧ (∀ a : A, first (Val a) [] = (Return (Val a), []))
  ∧ first (A:=A) _marker [] = (Raise ValueError, [])
  ∧ (∀ (default : value A) iterable,
      (length iterable ≤ S (length (first default iterable).2))%nat
      ∧ (first default iterable).2 `suffix_of` iterable).
Proof.
  repeat split; try done.
  - destruct iterable as [|x rest]; simpl; [destruct default|]; simpl; lia.
  - destruct iterable as [|x rest]; simpl; [by destruct default|].
    by apply suffix_cons_r.
Qed.

(** ** peekable *)

Section PeekableFacts.
Context {T : Type}.
Implicit Types (self : peekable T) (x : T) (it : list T).

Lemma peek_cached it x :
  peek (Peekable it (Some x)) = (Return x, Peekable it (Some x)).
Proof. done. Qed.

Lemma peek_fresh x it :
  peek (Peekable (x :: it) None) = (Return x, Peekable it (Some x)).
Proof. done. Qed.

Lemma peek_exhausted :
  peek (Peekable (@nil T) None) = (Raise StopIteration, Peekable [] None).
Proof. done. Qed.


(** [peek] in terms of what is pending. *)
Lemma peek_pending self :
  match pending self with
  | [] => peek self = (Raise StopIteration, self)
  | x :: _ => ∃ self', peek self = (Return x, self')
                       ∧ _peek self' = Some x
                       ∧ pending self' = pending self
  end.
Proof. peekable_cases self; simpl; eauto. Qed.

Lemma next_pending self :
  match pending self with
  | [] => next self = (Raise StopIteration, self)
  | x :: rest => next self = (Return x, Peekable rest None)
  end.
Proof. by peekable_cases self. Qed.

Lemma nonzero_pending self :
  match pending self with
  | [] => __nonzero__ self = (Return false, self)
  | x :: _ => ∃ self', __nonzero__ self = (Return true, self')
                       ∧ _peek self' = Some x
                       ∧ pending self' = pending self
  end.
Proof. peekable_cases self; simpl; eauto. Qed.

(** Two wrappers with the same pending elements cannot be told apart by
    [peek], [next] or the truth test. *)
Lemma peek_observable self1 self2 :
  pending self1 = pending self2 →
  (peek self1).1 = (peek self2).1
  ∧ pending (peek self1).2 = pending (peek self2).2.
Proof.
  intros E. pose proof (peek_pending self1) as H1.
  pose proof (peek_pending self2) as H2. rewrite <- E in H2.
  destruct (pending self1) eqn:E1.
  - rewrite H1, H2. simpl. split; congruence.
  - destruct H1 as (?&->&_&?), H2 as (?&->&_&?). simpl. split; congruence.
Qed.

Lemma next_observable self1 self2 :
  pending self1 = pending self2 →
  (next self1).1 = (next self2).1
  ∧ pending (next self1).2 = pending (next self2).2.
Proof.
  intros E. pose proof (next_pending self1) as H1.
  pose proof (next_pending self2) as H2. rewrite <- E in H2.
  destruct (pending self1) eqn:E1; rewrite H1, H2; simpl; split; congruence.
Qed.

Lemma nonzero_observable self1 self2 :
  pending self1 = pending self2 →
  (__nonzero__ self1).1 = (__nonzero__ self2).1
  ∧ pending (__nonzero__ self1).2 = pending (__nonzero__ self2).2.
Proof.
  intros E. pose proof (nonzero_pending self1) as H1.
  pose proof (nonzero_pending self2) as H2. rewrite <- E in H2.
  destruct (pending self1) eqn:E1.
  - rewrite H1, H2. simpl. split; congruence.
  - destruct H1 as (?&->&_&?), H2 as (?&->&_&?). simpl. split; congruence.
Qed.

Lemma peek_peek self : peek (peek self).2 = peek self.
Proof. by peekable_cases self. Qed.

Lemma call_times_S {S} (m : method S T) k (s : S) :
  call_times m (Datatypes.S k) s
  = ((m s).1 :: (call_times m k (m s).2).1, (call_times m k (m s).2).2).
Proof.
  simpl. destruct (m s) as [o s']. simpl.
  destruct (call_times m k s'). reflexivity.
Qed.

Lemma call_times_peek k self :
  call_times peek (S k) self = (replicate (S k) (peek self).1, (peek self).2).
Proof.
  induction k as [|k IH] in self |- *.
  - simpl. by destruct (peek self).
  - rewrite call_times_S, IH, peek_peek. done.
Qed.

(** C4: any number of [peek] calls in a row give the outcome of the first
    one every time and leave the wrapper as the first one left it; the
    pending elements are those from before the calls; at most one element
    has left the underlying iterator; and once a value is cached, [peek]
    answers from the cache whatever the iterator holds. *)
Theorem peek_idempotent self (k : nat) :
  call_times peek (S k) self = (replicate (S k) (peek self).1, (peek self).2)
  ∧ pending (peek self).2 = pending self
  ∧ (length (_it self) ≤ S (length (_it (peek self).2)))%nat
  ∧ (_it (peek self).2) `suffix_of` (_it self)
  ∧ (∀ x, (peek self).1 = Return x →
       ∀ it, peek (Peekable it (_peek (peek self).2))
             = (Return x, Peekable it (_peek (peek self).2))).
Proof.
  split; [apply call_times_peek|].
  peekable_cases self; simpl; repeat split; try done; try lia;
    try (by apply suffix_cons_r); try (by intros ? [= ->]).
Qed.

(** C5: [next] is the described composition (a [peek] if nothing is cached,
    then the cache cleared and the value returned): it has the outcome
    [peek] has, value or exception, and leaves nothing cached. *)
Theorem next_as_described self :
  next self = next_described self
  ∧ (next self).1 = (peek self).1
  ∧ _peek (next self).2 = None
  ∧ pending (next self).2 = tail (pending self).
Proof. by peekable_cases self. Qed.

(** C6: the truth test never raises; it answers [true] exactly when a
    [peek] after it (or instead of it) succeeds; it leaves the pending
    elements alone, so that [next] after it does what [next] would have
    done without it. *)
Theorem nonzero_has_more self :
  (__nonzero__ self).1 = Return (returns (peek (__nonzero__ self).2).1)
  ∧ (__nonzero__ self).1 = Return (returns (peek self).1)
  ∧ pending (__nonzero__ self).2 = pending self
  ∧ next (__nonzero__ self).2 = next self.
Proof. by peekable_cases self. Qed.

Lemma calls_exhausted (which : list bool) :
  calls which (Peekable (@nil T) None)
  = (replicate (length which) (Raise StopIteration), Peekable [] None).
Proof.
  induction which as [|w which IH]; [done|].
  destruct w; simpl; by rewrite IH.
Qed.

(** C7: [peek] and [next] raise StopIteration (Exhausted) exactly when
    nothing is cached and the underlying iterator is exhausted, they raise
    nothing else, and from that state on every call of either raises it
    and leaves the wrapper where it is. *)
Theorem exhausted_exactly self :
  ((peek self).1 = Raise StopIteration ↔ _peek self = None ∧ _it self = [])
  ∧ ((next self).1 = Raise StopIteration ↔ _peek self = None ∧ _it self = [])
  ∧ (∀ e, (peek self).1 = Raise e ∨ (next self).1 = Raise e →
          e = StopIteration)
  ∧ (∀ which : list bool,
       calls which (Peekable (@nil T) None)
       = (replicate (length which) (Raise StopIteration), Peekable [] None)).
Proof.
  split_and!; [| | |apply calls_exhausted].
  - peekable_cases self; simpl; (split; [done|by intros [? ?]]).
  - peekable_cases self; simpl; (split; [done|by intros [? ?]]).
  - intros e [H|H]; peekable_cases self; simpl in H; congruence.
Qed.
End PeekableFacts.

(** ** chunked *)

Section ChunkedFacts.
Context {A : Type}.
Implicit Types (x fill : value A) (it l : list (value A)).
Implicit Types (slots : list bool) (g : list (value A)).

Lemma active_cons b slots :
  active (b :: slots) = ((if b then 1 else 0) + active slots)%nat.
Proof.
  unfold active. destruct b.
  - by rewrite filter_cons_True.
  - by rewrite filter_cons_False.
Qed.

Lemma active_replicate_true k : active (replicate k true) = k.
Proof.
  induction k as [|k IH]; [done|].
  change (replicate (S k) true) with (true :: replicate k true).
  rewrite active_cons, IH. done.
Qed.

Lemma active_replicate_false k : active (replicate k false) = O.
Proof.
  induction k as [|k IH]; [done|].
  change (replicate (S k) false) with (false :: replicate k false).
  rewrite active_cons, IH. done.
Qed.

Lemma active_app slots1 slots2 :
  active (slots1 ++ slots2) = (active slots1 + active slots2)%nat.
Proof. unfold active. by rewrite filter_app, length_app. Qed.

(** The iterator is exhausted and other positions than those of [slots]
    are still active: every position of [slots] is filled. *)
Lemma fill_exhausted_more fill slots extra :
  (1 ≤ extra)%nat →
  izip_longest_fill fill slots (active slots + extra) []
  = (Return (replicate (length slots) fill),
     (replicate (length slots) false, extra, [])).
Proof.
  intros Hextra. induction slots as [|[] slots IH]; [done| |].
  - rewrite active_cons. simpl.
    destruct (Nat.eqb_spec (active slots + extra) 0) as [E|_]; [lia|].
    by rewrite IH.
  - rewrite active_cons. simpl. by rewrite IH.
Qed.

(** The iterator is exhausted and the active positions are all in
    [slots]: the last of them ends the iteration. *)
Lemma fill_exhausted_stop fill slots :
  (1 ≤ active slots)%nat →
  ∃ slots', izip_longest_fill fill slots (active slots) []
            = (Raise StopIteration, (slots', O, [])).
Proof.
  induction slots as [|[] slots IH]; intros Hact.
  - unfold active in Hact. simpl in Hact. lia.
  - rewrite active_cons. simpl.
    destruct (Nat.eqb_spec (active slots) 0) as [E|E]; [by eauto|].
    destruct IH as [slots' ->]; [lia|]. simpl. by eauto.
  - rewrite active_cons in *. simpl in *.
    destruct IH as [slots' ->]; [done|]. simpl. by eauto.
Qed.

(** A full tuple: the iterator has an element for every position. *)
Lemma fill_full fill k na it :
  (k ≤ length it)%nat →
  izip_longest_fill fill (replicate k true) na it
  = (Return (take k it), (replicate k true, na, drop k it)).
Proof.
  induction k as [|k IH] in it |- *; intros Hk; [by rewrite drop_0|].
  destruct it as [|x it]; simpl in *; [lia|].
  rewrite IH by lia. done.
Qed.

(** A short tuple: the iterator runs dry before the last position. *)
Lemma fill_short fill l k extra :
  (1 ≤ extra)%nat →
  izip_longest_fill fill (replicate (length l) true ++ replicate k true)
    (k + extra) l
  = (Return (l ++ replicate k fill),
     (replicate (length l) true ++ replicate k false, extra, [])).
Proof.
  intros Hextra. induction l as [|x l IH]; simpl.
  - pose proof (fill_exhausted_more fill (replicate k true) extra Hextra) as H.
    by rewrite active_replicate_true, length_replicate in H.
  - by rewrite IH.
Qed.

Lemma last_app_replicate l k x :
  (1 ≤ k)%nat → last (l ++ replicate k x) = Some x.
Proof.
  intros Hk. destruct k as [|k]; [lia|].
  replace (S k) with (k + 1)%nat by lia.
  rewrite replicate_add, !app_assoc. simpl. apply last_snoc.
Qed.

Lemma filter_markers l k :
  Forall (λ x, x ≠ _marker) l →
  filter (λ x, is_marker x = false) (l ++ replicate k _marker) = l.
Proof.
  intros Hl. rewrite filter_app.
  replace (filter _ (replicate k _marker)) with (@nil (value A)).
  - rewrite app_nil_r. induction Hl as [|x l Hx _ IH]; [done|].
    rewrite filter_cons_True by (by destruct x). by rewrite IH.
  - induction k as [|k IH]; [done|]. simpl. by rewrite filter_cons_False.
Qed.

Lemma chunked_loop_full k it :
  (1 ≤ k ≤ length it)%nat →
  Forall (λ x, x ≠ _marker) it →
  chunked_loop (Izip (replicate k true) k) it
  = (Return (take k it),
     (ChunkedSuspended (Izip (replicate k true) k), drop k it)).
Proof.
  intros Hk Hit. unfold chunked_loop, izip_longest_next. simpl.
  rewrite length_replicate.
  destruct (Nat.eqb_spec k 0) as [?|_]; [lia|].
  rewrite fill_full by lia.
  destruct (last (take k it)) as [x|] eqn:Hlast.
  - assert (x ≠ _marker) as Hx.
    { apply (Forall_take _ k) in Hit. rewrite Forall_forall in Hit.
      apply Hit. by apply last_Some_elem_of. }
    by destruct x.
  - apply last_None in Hlast. apply (f_equal length) in Hlast.
    rewrite length_take in Hlast. simpl in Hlast. lia.
Qed.
Lemma chunked_loop_short k l j :
  (1 ≤ length l)%nat → (1 ≤ j)%nat → k = (length l + j)%nat →
  Forall (λ x, x ≠ _marker) l →
  chunked_loop (Izip (replicate k true) k) l
  = (Return l,
     (ChunkedSuspended
        (Izip (replicate (length l) true ++ replicate j false) (length l)),
      [])).
Proof.
  intros Hl Hj -> Hno. unfold chunked_loop, izip_longest_next. simpl.
  rewrite length_replicate.
  destruct (Nat.eqb_spec (length l + j) 0) as [?|_]; [lia|].
  rewrite replicate_add.
  replace (length l + j)%nat with (j + length l)%nat at 1 by lia.
  rewrite fill_short by done.
  rewrite last_app_replicate by done. simpl.
  by rewrite filter_markers.
Qed.

(** Once the iterator is exhausted, the next turn ends the loop. *)
Lemma chunked_loop_done slots :
  (1 ≤ active slots)%nat →
  chunked_loop (Izip slots (active slots)) (@nil (value A))
  = (Raise StopIteration, (ChunkedFinished, [])).
Proof.
  intros Hact. unfold chunked_loop, izip_longest_next. simpl.
  destruct (Nat.eqb_spec (length slots) 0) as [E|_].
  { destruct slots; [|done]. unfold active in Hact. simpl in Hact. lia. }
  destruct (Nat.eqb_spec (active slots) 0) as [?|_]; [lia|].
  by destruct (fill_exhausted_stop _marker slots Hact) as [slots' ->].
Qed.

Lemma list_of_S {S T} (resume : method S T) fuel (s : S) :
  list_of resume (Datatypes.S fuel) s
  = match resume s with
    | (Return x, s') =>
        match list_of resume fuel s' with
        | Some (Return xs, s'') => Some (Return (x :: xs), s'')
        | r => r
        end
    | (Raise StopIteration, s') => Some (Return [], s')
    | (Raise e, s') => Some (Raise e, s')
    end.
Proof. done. Qed.

Lemma chunked_next_suspended lz it :
  chunked_next (ChunkedSuspended lz, it) = chunked_loop lz it.
Proof. done. Qed.

(** The whole run, from a turn of the loop at which no position has been
    replaced yet. *)
Lemma chunked_run k fuel it :
  (1 ≤ k)%nat → (length it < fuel)%nat →
  Forall (λ x, x ≠ _marker) it →
  ∃ groups,
    list_of chunked_next fuel
      (ChunkedSuspended (Izip (replicate k true) k), it)
    = Some (Return groups, (ChunkedFinished, []))
    ∧ concat groups = it
    ∧ Forall (λ g, 1 ≤ length g ≤ k)%nat groups
    ∧ (∀ i g, groups !! i = Some g → (i + 1 < length groups)%nat →
              length g = k).
Proof.
  intros Hk. induction fuel as [|fuel IH] in it |- *; intros Hfuel Hno; [lia|].
  rewrite list_of_S, chunked_next_suspended.
  destruct (decide (it = [])) as [->|Hne].
  { pose proof (chunked_loop_done (replicate k true)) as H.
    rewrite active_replicate_true in H. rewrite H by done.
    exists []. split_and!; [done|done|constructor|].
    intros i g Hi. by rewrite lookup_nil in Hi. }
  assert (1 ≤ length it)%nat as Hlen by (destruct it; simpl; [done|lia]).
  destruct (decide (k ≤ length it)%nat) as [Hfull|Hshort].
  - rewrite chunked_loop_full by (done || lia).
    destruct (IH (drop k it)) as (groups & Hrun & Hcat & Hall & Hinit).
    { rewrite length_drop. lia. }
    { by apply Forall_drop. }
    exists (take k it :: groups). split_and!.
    + cbv beta iota. by rewrite Hrun.
    + simpl. by rewrite Hcat, take_drop.
    + constructor; [|done]. rewrite length_take. lia.
    + intros [|i] g Hi Hlt; simpl in *.
      * injection Hi as <-. rewrite length_take. lia.
      * apply (Hinit i); [done|lia].
  - rewrite (chunked_loop_short k it (k - length it)) by (done || lia).
    destruct fuel as [|fuel]; [lia|].
    rewrite list_of_S, chunked_next_suspended.
    pose proof (chunked_loop_done
      (replicate (length it) true ++ replicate (k - length it) false)) as H.
    rewrite active_app, active_replicate_true, active_replicate_false,
      Nat.add_0_r in H.
    rewrite H by done.
    exists [it]. split_and!.
    + done.
    + simpl. by rewrite app_nil_r.
    + constructor; [lia|constructor].
    + intros [|i] g Hi Hlt; simpl in *; lia.
Qed.

Lemma index_range : PY_SSIZE_T_MIN < 0 < PY_SSIZE_T_MAX.
Proof. done. Qed.

(** A count that fits the index type is taken as it is. *)
Lemma list_repeat_in_range (n : Z) :
  PY_SSIZE_T_MIN ≤ n ≤ PY_SSIZE_T_MAX → list_repeat n = Return (Z.to_nat n).
Proof.
  intros Hn. unfold list_repeat.
  destruct (Z.ltb_spec n PY_SSIZE_T_MIN); [lia|].
  destruct (Z.ltb_spec PY_SSIZE_T_MAX n); [lia|]. done.
Qed.


(** With a count that fits, the first resumption is a turn of the loop on
    a fresh [izip_longest] object. *)
Lemma chunked_next_created (n : Z) it :
  PY_SSIZE_T_MIN ≤ n ≤ PY_SSIZE_T_MAX →
  chunked_next (ChunkedCreated n, it)
  = chunked_next (ChunkedSuspended (izip_longest_new (Z.to_nat n)), it).
Proof.
  intros Hn. unfold chunked_next. by rewrite list_repeat_in_range.
Qed.

Lemma list_of_chunked_created fuel (n : Z) it :
  PY_SSIZE_T_MIN ≤ n ≤ PY_SSIZE_T_MAX →
  list_of chunked_next fuel (ChunkedCreated n, it)
  = list_of chunked_next fuel
      (ChunkedSuspended (izip_longest_new (Z.to_nat n)), it).
Proof.
  intros Hn. destruct fuel as [|fuel]; [done|].
  by rewrite !list_of_S, chunked_next_created.
Qed.

(** The groups for a source in which the sentinel does not occur. *)
Lemma chunked_sentinel_free (S : list (value A)) (n : Z) :
  0 < n ≤ PY_SSIZE_T_MAX →
  Forall (λ x, x ≠ _marker) S →
  ∃ groups,
    chunked S n = Some (Return groups, (ChunkedFinished, []))
    ∧ concat groups = S
    ∧ (∀ i g, groups !! i = Some g → (i + 1 < length groups)%nat →
              Z.of_nat (length g) = n)
    ∧ (∀ g, last groups = Some g → 1 ≤ Z.of_nat (length g) ≤ n)
    ∧ (groups = [] ↔ S = [])
    ∧ Forall (Forall (λ x, x ≠ _marker)) groups.
Proof.
  intros Hn Hno. unfold chunked. pose proof index_range as Hrange.
  destruct (chunked_run (Z.to_nat n) (Datatypes.S (length S)) S)
    as (groups & Hrun & Hcat & Hall & Hinit); [lia|lia|done|].
  exists groups. split_and!.
  - rewrite list_of_chunked_created by lia. by rewrite <- Hrun.
  - done.
  - intros i g Hi Hlt. rewrite (Hinit i g Hi Hlt). lia.
  - intros g Hg. apply last_Some_elem_of in Hg.
    rewrite Forall_forall in Hall. apply Hall in Hg. lia.
  - split; [by intros ->|]. intros ->.
    destruct groups as [|g groups]; [done|].
    apply Forall_cons in Hall as [Hg _]. simpl in Hcat.
    destruct g; simpl in *; [lia|done].
  - rewrite <- Hcat in Hno. by apply Forall_concat in Hno.
Qed.

Lemma values_no_marker (l : list A) : Forall (λ x, x ≠ _marker) (Val <$> l).
Proof. apply Forall_fmap, Forall_forall. by intros a _. Qed.

Lemma no_marker_values l :
  Forall (λ x, x ≠ _marker) l → ∃ l0 : list A, l = Val <$> l0.
Proof.
  induction 1 as [|x l Hx _ [l0 ->]]; [by exists []|].
  destruct x as [|a]; [done|]. by exists (a :: l0).
Qed.

Lemma no_marker_groups (groups : list (list (value A))) :
  Forall (Forall (λ x, x ≠ _marker)) groups →
  ∃ groups0 : list (list A), groups = fmap (M:=list) Val <$> groups0.
Proof.
  induction 1 as [|g groups Hg _ [groups0 ->]]; [by exists []|].
  destruct (no_marker_values g Hg) as [g0 ->]. by exists (g0 :: groups0).
Qed.

Lemma concat_values (groups0 : list (list A)) :
  concat (fmap (M:=list) Val <$> groups0) = Val <$> concat groups0.
Proof.
  induction groups0 as [|g groups0 IH]; [done|].
  rewrite !fmap_cons, !concat_cons, fmap_app, IH. done.
Qed.

Lemma Val_inj : Inj (=) (=) (@Val A).
Proof. by intros a b [= ->]. Qed.

(** C2, as amended: for every source [S] of values of the caller's and
    every positive [n] that fits the index type, [list(chunked(S, n))] is
    a list of groups of values of the caller's (no group holds the
    sentinel) whose concatenation is [S]; every group but the last has
    exactly [n] elements and the last has between 1 and [n]; there is no
    group at all exactly when [S] is empty. *)
Theorem chunked_groups (S : list A) (n : Z) :
  0 < n ≤ PY_SSIZE_T_MAX →
  ∃ groups : list (list A),
    chunked (Val <$> S) n
    = Some (Return (fmap (M:=list) Val <$> groups), (ChunkedFinished, []))
    ∧ Forall (Forall (λ x, x ≠ _marker)) (fmap (M:=list) Val <$> groups)
    ∧ concat groups = S
    ∧ (∀ i (g : list A), groups !! i = Some g → (i + 1 < length groups)%nat →
              Z.of_nat (length g) = n)
    ∧ (∀ g : list A, last groups = Some g → 1 ≤ Z.of_nat (length g) ≤ n)
    ∧ (groups = [] ↔ S = []).
Proof.
  intros Hn.
  destruct (chunked_sentinel_free (Val <$> S) n Hn (values_no_marker S))
    as (groups' & Hrun & Hcat & Hinit & Hlast & Hnil & Hno).
  destruct (no_marker_groups groups' Hno) as [groups ->].
  exists groups. split_and!; [done|done|..].
  - rewrite concat_values in Hcat.
    by apply (list_fmap_eq_inj Val Val_inj) in Hcat.
  - intros i g0 Hi Hlt. rewrite <- (Hinit i (Val <$> g0)).
    + by rewrite length_fmap.
    + by rewrite list_lookup_fmap, Hi.
    + by rewrite length_fmap.
  - intros g0 Hg. rewrite <- (length_fmap Val g0). apply Hlast.
    by rewrite fmap_last, Hg.
  - split; intros ->.
    + apply (fmap_nil_inv Val), Hnil. done.
    + apply (fmap_nil_inv (fmap Val)), Hnil. done.
Qed.


(** C10, as amended: for [n <= 0] that fits the index type the generator
    ends at its first resumption, without an exception of another kind
    and without taking anything from the source, so
    [list(chunked(S, n))] is the empty list. *)
Theorem chunked_nonpositive (S : list (value A)) (n : Z) :
  PY_SSIZE_T_MIN ≤ n ≤ 0 →
  chunked_next (ChunkedCreated n, S)
  = (Raise StopIteration, (ChunkedFinished, S))
  ∧ chunked S n = Some (Return [], (ChunkedFinished, S)).
Proof.
  intros Hn. pose proof index_range as Hrange.
  unfold chunked. rewrite list_of_S, chunked_next_created by lia.
  unfold chunked_next, chunked_loop, izip_longest_next, izip_longest_new.
  replace (Z.to_nat n) with O by lia. done.
Qed.
End ChunkedFacts.

(** C2 at [list(chunked([1, 2, 3, 4, 5, 6, 7], 3))]. *)
Lemma chunked_groups_witness :
  ∃ groups : list (list Z),
    chunked (Val <$> [1; 2; 3; 4; 5; 6; 7]) 3
    = Some (Return (fmap (M:=list) Val <$> groups), (ChunkedFinished, []))
    ∧ Forall (Forall (λ x, x ≠ _marker)) (fmap (M:=list) Val <$> groups)
    ∧ concat groups = [1; 2; 3; 4; 5; 6; 7]
    ∧ (∀ i g, groups !! i = Some g → (i + 1 < length groups)%nat →
              Z.of_nat (length g) = 3)
    ∧ (∀ g, last groups = Some g → 1 ≤ Z.of_nat (length g) ≤ 3)
    ∧ (groups = [] ↔ [1; 2; 3; 4; 5; 6; 7] = []).
Proof. apply (chunked_groups [1; 2; 3; 4; 5; 6; 7] 3). done. Defined.

(** C2 as it was stated fails at [chunked([1, 2, 3], 2 ** 64)]: the count
    does not fit the index type, and the generator raises
    OverflowError at its first resumption instead of yielding a group. *)
Lemma chunked_groups_counterexample :
  0 < 2 ^ 64
  ∧ chunked (Val <$> [1; 2; 3]) (2 ^ 64)
    = Some (Raise OverflowError, (ChunkedFinished, Val <$> [1; 2; 3]))
  ∧ ¬ ∃ (groups : list (list Z)) final,
        chunked (Val <$> [1; 2; 3]) (2 ^ 64)
        = Some (Return (fmap (M:=list) Val <$> groups), final)
        ∧ concat groups = [1; 2; 3].
Proof.
  split; [done|]. split; [reflexivity|].
  intros (groups & final & Hrun & _).
  assert (chunked (Val <$> [1; 2; 3]) (2 ^ 64)
          = Some (Raise OverflowError, (ChunkedFinished, Val <$> [1; 2; 3])))
    as Hcode by reflexivity.
  rewrite Hcode in Hrun. discriminate.
Qed.

Lemma chunked_nonpositive_witness :
  chunked_next (ChunkedCreated (-2), Val <$> [1; 2; 3])
  = (Raise StopIteration, (ChunkedFinished, Val <$> [1; 2; 3]))
  ∧ chunked (Val <$> [1; 2; 3]) (-2)
    = Some (Return [], (ChunkedFinished, Val <$> [1; 2; 3])).
Proof. apply (chunked_nonpositive (Val <$> [1; 2; 3]) (-2)). done. Defined.


(** C10 as it was stated fails at [chunked([1, 2, 3], -2 ** 64)]: the
    generator does not end with an empty sequence, it raises
    OverflowError at its first resumption. *)
Lemma chunked_nonpositive_counterexample :
  - 2 ^ 64 ≤ 0
  ∧ chunked_next (ChunkedCreated (- 2 ^ 64), Val <$> [1; 2; 3])
    = (Raise OverflowError, (ChunkedFinished, Val <$> [1; 2; 3]))
  ∧ chunked (Val <$> [1; 2; 3]) (- 2 ^ 64)
    ≠ Some (Return [], (ChunkedFinished, Val <$> [1; 2; 3])).
Proof.
  split; [done|]. split; [reflexivity|].
  intros Hrun.
  assert (chunked (Val <$> [1; 2; 3]) (- 2 ^ 64)
          = Some (Raise OverflowError, (ChunkedFinished, Val <$> [1; 2; 3])))
    as Hcode by reflexivity.
  rewrite Hcode in Hrun. discriminate.
Qed.

(** ** collate *)

Section HeapFacts.
Context {T : Type}.
Implicit Types (self : peekable T) (heap : list (peekable T)).
Implicit Types (x : T) (p q i : nat).

Lemma call_lookup {R} (m : method (peekable T) R) p heap self :
  heap !! p = Some self →
  call m p heap = ((m self).1, <[p := (m self).2]> heap).
Proof. intros H. unfold call. rewrite H. by destruct (m self). Qed.

Lemma pending_of_lookup heap p self :
  heap !! p = Some self → pending_of heap p = pending self.
Proof. intros H. unfold pending_of. by rewrite H. Qed.

Lemma pending_of_insert heap p self i :
  (p < length heap)%nat →
  pending_of (<[p := self]> heap) i
  = if decide (i = p) then pending self else pending_of heap i.
Proof.
  intros Hp. unfold pending_of. destruct (decide (i = p)) as [->|Hne].
  - by rewrite list_lookup_insert_eq.
  - by rewrite list_lookup_insert_ne.
Qed.

Lemma cached_insert heap p self i :
  (p < length heap)%nat →
  (is_Some (_peek self) ∨ i ≠ p) →
  cached heap i ∨ i = p → cached (<[p := self]> heap) i.
Proof.
  intros Hp Hself Hi. unfold cached. destruct (decide (i = p)) as [->|Hne].
  - rewrite list_lookup_insert_eq by done.
    destruct Hself as [?|?]; [by eauto|done].
  - rewrite list_lookup_insert_ne by done. by destruct Hi.
Qed.

Lemma cached_pending heap p :
  cached heap p →
  ∃ self x rest, heap !! p = Some self ∧ _peek self = Some x
                 ∧ pending_of heap p = x :: rest.
Proof.
  intros (self & Hself & [x Hx]). exists self, x, (_it self).
  split_and!; [done..|].
  rewrite (pending_of_lookup _ _ _ Hself). unfold pending. by rewrite Hx.
Qed.

(** The truth test, in terms of what is pending. *)
Lemma nonzero_summary self :
  ∃ self', __nonzero__ self = (Return (bool_decide (pending self ≠ [])), self')
           ∧ pending self' = pending self
           ∧ (pending self ≠ [] → is_Some (_peek self'))
           ∧ (is_Some (_peek self) → is_Some (_peek self')).
Proof.
  peekable_cases self; eexists; (split; [reflexivity|]); simpl; eauto.
  split_and!; [done|done|by intros [? [=]]].
Qed.
End HeapFacts.

Section CollateFacts.
Context {T : Type}.
Variable key : T → Z.
Variable reverse : bool.
Variable address : nat → Z.
Implicit Types (self : peekable T) (heap : list (peekable T)).
Implicit Types (x y : T) (p q i : nat) (peekables refs : list nat).
Implicit Types (items : list (Z * nat)) (f : collate_frame (T:=T)).
Implicit Types (iterables : list (list T)).

(** Line 127 and line 131: the references to wrappers with something
    pending are kept, in order; what is pending does not change; the kept
    wrappers have their next element cached. *)
Lemma kill_empties_spec refs heap :
  (∀ p, p ∈ refs → (p < length heap)%nat) →
  ∃ heap',
    kill_empties refs heap
    = (Return (filter (λ p, pending_of heap p ≠ []) refs), heap')
    ∧ length heap' = length heap
    ∧ (∀ i, pending_of heap' i = pending_of heap i)
    ∧ (∀ p, p ∈ refs → pending_of heap p ≠ [] → cached heap' p)
    ∧ (∀ i, cached heap i → cached heap' i).
Proof.
  induction refs as [|p refs IH] in heap |- *; intros Hrefs.
  { exists heap. by split_and!; [..|intros ? ?%elem_of_nil|]. }
  assert (p < length heap)%nat as Hp by (apply Hrefs; left).
  destruct (lookup_lt_is_Some_2 heap p Hp) as [self Hself].
  destruct (nonzero_summary self) as (self' & Hnz & Hpend & Hnew & Hold).
  simpl. rewrite (call_lookup _ _ _ _ Hself), Hnz. simpl.
  set (heap1 := <[p := self']> heap).
  assert (∀ i, pending_of heap1 i = pending_of heap i) as Hsame.
  { intros i. unfold heap1. rewrite pending_of_insert by done.
    case_decide as E; [|done]. subst i.
    by rewrite (pending_of_lookup _ _ _ Hself). }
  destruct (IH heap1) as (heap' & -> & Hlen & Hpend' & Hcached & Hkeep).
  { intros q Hq. unfold heap1. rewrite length_insert.
    apply Hrefs. by right. }
  exists heap'. split_and!.
  - assert (pending_of heap p = pending self) as Hpp
      by (by apply pending_of_lookup).
    rewrite (list_filter_iff (λ q, pending_of heap1 q ≠ [])
               (λ q, pending_of heap q ≠ []))
      by (intros q; by rewrite Hsame).
    destruct (decide (pending self ≠ [])) as [E|E].
    + rewrite bool_decide_true by done.
      rewrite filter_cons_True; [done|]. by rewrite Hpp.
    + rewrite bool_decide_false by done.
      rewrite filter_cons_False; [done|]. by rewrite Hpp.
  - rewrite Hlen. unfold heap1. by rewrite length_insert.
  - intros i. by rewrite Hpend', Hsame.
  - intros q [->|Hq]%elem_of_cons Hne.
    + apply Hkeep. unfold heap1. apply cached_insert; [done| |by right].
      left. apply Hnew. by rewrite <- (pending_of_lookup _ _ _ Hself).
    + apply Hcached; [done|]. by rewrite Hsame.
  - intros i Hi. apply Hkeep. unfold heap1.
    destruct (decide (i = p)) as [->|Hne].
    + apply cached_insert; [done| |by right]. left. apply Hold.
      destruct Hi as (self0 & Hself0 & Hsome). congruence.
    + apply cached_insert; [done|by right|by left].
Qed.

(** The generator expression over wrappers that all have their next
    element cached: one item for each, and no wrapper changes. *)
Lemma heads_spec refs heap :
  (∀ p, p ∈ refs → cached heap p) →
  ∃ items,
    heads key refs heap = (Return items, heap)
    ∧ items.*2 = refs
    ∧ (∀ k p, (k, p) ∈ items →
         ∃ x rest, pending_of heap p = x :: rest ∧ k = key x).
Proof.
  induction refs as [|p refs IH]; intros Hrefs.
  { exists []. split_and!; [done..|]. by intros ?? ?%elem_of_nil. }
  destruct (cached_pending heap p) as (self & x & rest & Hself & Hx & Hp).
  { apply Hrefs. left. }
  destruct IH as (items & Hitems & Hrefs' & Hkeys).
  { intros q Hq. apply Hrefs. by right. }
  exists ((key x, p) :: items). split_and!.
  - simpl. rewrite (call_lookup _ _ _ _ Hself).
    assert (peek self = (Return x, self)) as ->.
    { destruct self as [it pk]. simpl in Hx. by subst pk. }
    simpl. rewrite list_insert_id by done. by rewrite Hitems.
  - rewrite fmap_cons. simpl. by f_equal.
  - intros k q [[= -> ->]|Hin]%elem_of_cons; [by eauto|]. by apply Hkeys.
Qed.

Lemma tuple_lt_le a b : tuple_lt address a b = true → a.1 ≤ b.1.
Proof.
  unfold tuple_lt. destruct (Z.eqb_spec a.1 b.1); [lia|].
  intros ?%Z.ltb_lt. lia.
Qed.

Lemma tuple_lt_ge a b : tuple_lt address a b = false → b.1 ≤ a.1.
Proof.
  unfold tuple_lt. destruct (Z.eqb_spec a.1 b.1); [lia|].
  intros ?%Z.ltb_ge. lia.
Qed.

Lemma min_from_spec cur items :
  min_from address cur items ∈ cur :: items
  ∧ ∀ item, item ∈ cur :: items → (min_from address cur items).1 ≤ item.1.
Proof.
  induction items as [|item items IH] in cur |- *; simpl.
  { split; [left|]. by intros ? ->%list_elem_of_singleton. }
  destruct (IH (if tuple_lt address item cur then item else cur))
    as [Hin Hle].
  split.
  - apply elem_of_cons in Hin as [->|Hin].
    + destruct (tuple_lt address item cur); [right; left|left].
    + right. by right.
  - intros item' Hitem'.
    destruct (tuple_lt address item cur) eqn:Hlt.
    + apply tuple_lt_le in Hlt.
      apply elem_of_cons in Hitem' as [->|[->|?]%elem_of_cons].
      * etrans; [apply Hle; left|done].
      * apply Hle. left.
      * apply Hle. by right.
    + apply tuple_lt_ge in Hlt.
      apply elem_of_cons in Hitem' as [->|[->|?]%elem_of_cons].
      * apply Hle. left.
      * etrans; [apply Hle; left|done].
      * apply Hle. by right.
Qed.

Lemma max_from_spec cur items :
  max_from address cur items ∈ cur :: items
  ∧ ∀ item, item ∈ cur :: items → item.1 ≤ (max_from address cur items).1.
Proof.
  induction items as [|item items IH] in cur |- *; simpl.
  { split; [left|]. by intros ? ->%list_elem_of_singleton. }
  destruct (IH (if tuple_lt address cur item then item else cur))
    as [Hin Hle].
  split.
  - apply elem_of_cons in Hin as [->|Hin].
    + destruct (tuple_lt address cur item); [right; left|left].
    + right. by right.
  - intros item' Hitem'.
    destruct (tuple_lt address cur item) eqn:Hlt.
    + apply tuple_lt_le in Hlt.
      apply elem_of_cons in Hitem' as [->|[->|?]%elem_of_cons].
      * etrans; [done|apply Hle; left].
      * apply Hle. left.
      * apply Hle. by right.
    + apply tuple_lt_ge in Hlt.
      apply elem_of_cons in Hitem' as [->|[->|?]%elem_of_cons].
      * apply Hle. left.
      * etrans; [done|apply Hle; left].
      * apply Hle. by right.
Qed.

(** The selected item is one of the items and no item comes before it in
    the order the output is to have. *)
Lemma min_or_max_spec items :
  items ≠ [] →
  ∃ k p, min_or_max reverse address items = Return (k, p)
         ∧ (k, p) ∈ items
         ∧ ∀ k' p', (k', p') ∈ items →
             if reverse then k' ≤ k else k ≤ k'.
Proof.
  destruct items as [|item items]; [done|]. intros _.
  unfold min_or_max. destruct reverse.
  - destruct (max_from_spec item items) as [Hin Hle].
    destruct (max_from address item items) as [k p] eqn:E.
    exists k, p. split_and!; [done..|]. intros k' p' H'. apply (Hle _ H').
  - destruct (min_from_spec item items) as [Hin Hle].
    destruct (min_from address item items) as [k p] eqn:E.
    exists k, p. split_and!; [done..|]. intros k' p' H'. apply (Hle _ H').
Qed.
(** One turn of the [while] loop, from the line that kills the empties
    to the [yield]. *)
Lemma collate_loop_spec heap refs lv :
  (∀ p, p ∈ refs → (p < length heap)%nat) →
  lv = filter (λ p, pending_of heap p ≠ []) refs →
  (lv = []
   ∧ collate_loop key reverse address heap refs
     = (Raise StopIteration, CollateFinished))
  ∨ (∃ p x heap',
       collate_loop key reverse address heap refs
       = (Return (p, x), CollateSuspended heap' lv)
       ∧ p ∈ lv
       ∧ length heap' = length heap
       ∧ pending_of heap p = x :: pending_of heap' p
       ∧ (∀ i, i ≠ p → pending_of heap' i = pending_of heap i)
       ∧ (∀ q y rest, q ∈ lv → pending_of heap q = y :: rest →
            in_order key reverse x y)).
Proof.
  intros Hrefs Hlv.
  destruct (kill_empties_spec refs heap Hrefs)
    as (heap1 & Hkill & Hlen & Hpend & Hcached & _).
  rewrite <- Hlv in Hkill. unfold collate_loop. rewrite Hkill.
  assert (∀ q, q ∈ lv → cached heap1 q) as Hlive.
  { intros q Hq. rewrite Hlv in Hq.
    apply list_elem_of_filter in Hq as [? ?]. by apply Hcached. }
  destruct (heads_spec lv heap1 Hlive) as (items & Hheads & Hitems & Hkeys).
  destruct (decide (lv = [])) as [->|Hne]; [by left|right].
  destruct (min_or_max_spec items) as (k & p & Hsel & Hin & Hext).
  { intros ->. by destruct lv. }
  assert (p ∈ lv) as Hp.
  { rewrite <- Hitems. apply list_elem_of_fmap. by exists (k, p). }
  destruct (Hkeys k p Hin) as (x & rest & Hpx & ->).
  destruct (Hlive p Hp) as (self & Hself & _).
  assert (pending self = x :: rest) as Hself_pending
    by (by rewrite <- (pending_of_lookup _ _ _ Hself)).
  pose proof (next_pending self) as Hnext. rewrite Hself_pending in Hnext.
  assert (p < length heap1)%nat as Hp1 by (by eapply lookup_lt_Some).
  exists p, x, (<[p := Peekable rest None]> heap1). split_and!.
  - clear Hlv. destruct lv as [|p0 lv']; [done|]. cbv beta iota.
    rewrite Hheads, Hsel, (call_lookup _ _ _ _ Hself), Hnext. done.
  - done.
  - by rewrite length_insert.
  - rewrite pending_of_insert, decide_True by done. simpl.
    by rewrite <- Hpend, Hpx.
  - intros i Hi. by rewrite pending_of_insert, decide_False, Hpend.
  - intros q y rest' Hq Hqy.
    assert (∃ kq, (kq, q) ∈ items) as [kq Hkq].
    { rewrite <- Hitems in Hq.
      apply list_elem_of_fmap in Hq as [[kq q'] [? ?]].
      simpl in *. subst q'. by exists kq. }
    destruct (Hkeys kq q Hkq) as (y' & rest'' & Hy' & ->).
    rewrite Hpend, Hqy in Hy'. injection Hy' as <- <-.
    specialize (Hext _ _ Hkq). unfold in_order. by destruct reverse.
Qed.
Lemma in_order_refl : Reflexive (in_order key reverse).
Proof. intros x. unfold in_order. destruct reverse; lia. Qed.

Lemma in_order_trans : Transitive (in_order key reverse).
Proof. intros x y z. unfold in_order. destruct reverse; lia. Qed.

(** Filtering a sub-list that holds every element the filter keeps. *)
Lemma filter_sublist_eq (P : nat → Prop) `{!∀ i, Decision (P i)} l1 l2 :
  l1 `sublist_of` l2 → NoDup l2 → (∀ i, i ∈ l2 → P i → i ∈ l1) →
  filter P l1 = filter P l2.
Proof.
  induction 1 as [|i l1 l2 Hsub IH|i l1 l2 Hsub IH]; intros Hnd HP; [done|..];
    apply NoDup_cons in Hnd as [Hi Hnd].
  - rewrite !filter_cons. rewrite IH; [done|done|].
    intros j Hj HPj.
    assert (j ∈ i :: l1) as [->|?]%elem_of_cons
      by (apply HP; [by right|done]); done.
  - rewrite filter_cons_False.
    + apply IH; [done|]. intros j Hj. apply HP. by right.
    + intros Hi'. apply Hi. eapply elem_of_sublist; [|done].
      apply HP; [left|done].
Qed.
Lemma started_remaining iterables i :
  remaining (started iterables) i = remaining (CollateCreated iterables) i.
Proof.
  simpl. unfold pending_of. rewrite list_lookup_fmap.
  by destruct (iterables !! i).
Qed.

Lemma started_ok iterables : frame_ok (length iterables) (started iterables).
Proof.
  split_and!; [by rewrite length_fmap|done|].
  intros i Hi. unfold pending_of. rewrite lookup_ge_None_2; [done|].
  rewrite length_fmap. destruct (decide (i < length iterables)%nat); [|lia].
  exfalso. apply Hi. apply elem_of_seq. lia.
Qed.

Lemma remaining_out_of_range n f i :
  frame_ok n f → (n ≤ i)%nat → remaining f i = [].
Proof.
  destruct f as [iterables|heap refs|]; simpl; [intros <-|intros (<-&_&_)|done];
    intros Hi; [|unfold pending_of]; by rewrite lookup_ge_None_2.
Qed.

(** One round of the generator, in terms of what remains of each input. *)
Lemma collate_round_spec n f lv :
  frame_ok n f →
  lv = filter (λ i, remaining f i ≠ []) (seq 0 n) →
  live f = Return lv
  ∧ ((lv = []
      ∧ collate_round key reverse address f
        = (Raise StopIteration, CollateFinished))
     ∨ (∃ p x f',
          collate_round key reverse address f = (Return (p, x), f')
          ∧ frame_ok n f'
          ∧ p ∈ lv
          ∧ remaining f p = x :: remaining f' p
          ∧ (∀ i, i ≠ p → remaining f' i = remaining f i)
          ∧ (∀ q y rest, q ∈ lv → remaining f q = y :: rest →
               in_order key reverse x y))).
Proof.
  assert (∀ heap refs,
    frame_ok n (CollateSuspended heap refs) →
    lv = filter (λ i, pending_of heap i ≠ []) (seq 0 n) →
    (kill_empties refs heap).1 = Return lv
    ∧ ((lv = []
        ∧ collate_loop key reverse address heap refs
          = (Raise StopIteration, CollateFinished))
       ∨ (∃ p x f',
            collate_loop key reverse address heap refs = (Return (p, x), f')
            ∧ frame_ok n f'
            ∧ p ∈ lv
            ∧ pending_of heap p = x :: remaining f' p
            ∧ (∀ i, i ≠ p → remaining f' i = pending_of heap i)
            ∧ (∀ q y rest, q ∈ lv → pending_of heap q = y :: rest →
                 in_order key reverse x y)))) as Hsusp.
  { intros heap refs (Hlen & Hsub & Hout) Hlv.
    assert (∀ p, p ∈ refs → (p < length heap)%nat) as Hrefs.
    { intros p Hp. eapply elem_of_sublist in Hp; [|done].
      apply elem_of_seq in Hp. lia. }
    assert (lv = filter (λ i, pending_of heap i ≠ []) refs) as Hlv'.
    { rewrite Hlv. symmetry. apply filter_sublist_eq; [done|apply NoDup_seq|].
      intros i _ Hi. destruct (decide (i ∈ refs)); [done|].
      by rewrite Hout in Hi. }
    split.
    { destruct (kill_empties_spec refs heap Hrefs) as (heap' & -> & _).
      by rewrite Hlv'. }
    destruct (collate_loop_spec heap refs lv Hrefs Hlv')
      as [?|(p & x & heap' & Hloop & Hp & Hlen' & Hpx & Hothers & Hord)];
      [by left|right].
    exists p, x, (CollateSuspended heap' lv). split_and!; try done.
    split_and!.
    - congruence.
    - rewrite Hlv. apply sublist_filter.
    - intros i Hi. assert (i ≠ p) as Hne by (by intros ->).
      rewrite (Hothers i Hne).
      destruct (decide (pending_of heap i = [])) as [?|Hi']; [done|].
      exfalso. apply Hi. rewrite Hlv'. apply list_elem_of_filter.
      split; [done|]. destruct (decide (i ∈ refs)); [done|].
      by rewrite Hout in Hi'. }
  intros Hok Hlv. destruct f as [iterables|heap refs|].
  - simpl in Hok. subst n.
    destruct (Hsusp _ _ (started_ok iterables)) as [Hlive Hround].
    { rewrite Hlv. apply list_filter_iff. intros i.
      by rewrite <- started_remaining. }
    split; [done|].
    destruct Hround
      as [?|(p & x & f' & Hloop & Hok' & Hp & Hpx & Hothers & Hord)];
      [by left|right].
    exists p, x, f'. split_and!; try done.
    + by rewrite <- started_remaining.
    + intros i Hi. by rewrite <- started_remaining, Hothers.
    + intros q y rest Hq. rewrite <- started_remaining. by apply Hord.
  - by apply Hsusp.
  - assert (lv = []) as ->; [|by eauto].
    rewrite Hlv. clear. induction (seq 0 n) as [|i l IH]; [done|].
    rewrite filter_cons_False; [done|]. simpl. intros H. by apply H.
Qed.
(** Taking the head off one of the lists [g p], [p] in [l]. *)
Lemma concat_update (g g' : nat → list T) l p x :
  NoDup l → p ∈ l → g p = x :: g' p → (∀ i, i ≠ p → g' i = g i) →
  concat (g <$> l) ≡ₚ x :: concat (g' <$> l).
Proof.
  intros Hnd Hp Hgp Hothers.
  apply list_elem_of_split in Hp as (l1 & l2 & ->).
  apply NoDup_app in Hnd as (_ & Hl1 & [Hl2 _]%NoDup_cons).
  assert (∀ l' : list nat, p ∉ l' → g' <$> l' = g <$> l') as Hext.
  { intros l' Hl'. apply list_fmap_ext. intros j i Hi. apply Hothers.
    intros ->. apply Hl'. by eapply list_elem_of_lookup_2. }
  rewrite !fmap_app, !fmap_cons, !concat_app, !concat_cons, Hgp.
  rewrite (Hext l1), (Hext l2); [|done|].
  - rewrite <- app_comm_cons. symmetry. apply Permutation_middle.
  - intros Hin. by apply (Hl1 p Hin); left.
Qed.

Lemma concat_all_nil (g : nat → list T) l :
  (∀ i, g i = []) → concat (g <$> l) = [].
Proof.
  intros Hg. induction l as [|i l IH]; [done|].
  rewrite fmap_cons, concat_cons, Hg, IH. done.
Qed.

(** The whole run from a frame, with a wrapper next to each value: the
    generator ends; the values taken from wrapper [i], in the order in
    which they are yielded, are what remained of input [i]; nothing else
    is yielded; and the values are in order when what remained of each
    input was. *)
Lemma trace_run n fuel f :
  frame_ok n f →
  (length (concat (remaining f <$> seq 0 n)) < fuel)%nat →
  ∃ tr,
    list_of (collate_round key reverse address) fuel f
    = Some (Return tr, CollateFinished)
    ∧ (∀ i, (filter (λ e, e.1 = i) tr).*2 = remaining f i)
    ∧ tr.*2 ≡ₚ concat (remaining f <$> seq 0 n)
    ∧ ((∀ i, StronglySorted (in_order key reverse) (remaining f i)) →
       StronglySorted (in_order key reverse) tr.*2).
Proof.
  induction fuel as [|fuel IH] in f |- *; intros Hok Hfuel; [lia|].
  rewrite list_of_S.
  destruct (collate_round_spec n f _ Hok eq_refl)
    as [_ [[Hnil ->]
          |(p & x & f' & -> & Hok' & Hp & Hpx & Hothers & Hord)]].
  - assert (∀ i, remaining f i = []) as Hall.
    { intros i. destruct (decide (i < n)%nat) as [Hi|Hi].
      - destruct (decide (remaining f i = [])) as [?|Hne]; [done|].
        exfalso. eapply (filter_nil_not_elem_of _ _ i Hnil); [done|].
        apply elem_of_seq. lia.
      - apply (remaining_out_of_range n); [done|lia]. }
    exists []. split_and!; [done|by intros i; rewrite Hall| |constructor].
    by rewrite concat_all_nil.
  - apply list_elem_of_filter in Hp as [Hp_ne Hp_seq].
    assert (concat (remaining f <$> seq 0 n)
            ≡ₚ x :: concat (remaining f' <$> seq 0 n)) as Hperm
      by (by apply (concat_update _ _ _ p); [apply NoDup_seq|..]).
    destruct (IH f' Hok') as (tr & -> & Hproj & Hperm' & Hsorted).
    { apply Permutation_length in Hperm. simpl in Hperm. lia. }
    exists ((p, x) :: tr). split_and!.
    + done.
    + intros i. destruct (decide (p = i)) as [<-|Hne].
      * rewrite filter_cons_True by done. rewrite fmap_cons, Hproj. done.
      * rewrite filter_cons_False by done. rewrite Hproj.
        apply Hothers. by intros ->.
    + rewrite fmap_cons. simpl. by rewrite Hperm, Hperm'.
    + intros Hin. rewrite fmap_cons. simpl. constructor.
      * apply Hsorted. intros i. destruct (decide (i = p)) as [->|Hne].
        -- specialize (Hin p). rewrite Hpx in Hin.
           by apply StronglySorted_inv in Hin as [? _].
        -- rewrite Hothers by done. apply Hin.
      * rewrite Hperm'. apply Forall_concat, Forall_fmap, Forall_forall.
        intros i Hi. simpl. destruct (decide (i = p)) as [->|Hne].
        -- specialize (Hin p). rewrite Hpx in Hin.
           by apply StronglySorted_inv in Hin as [_ ?].
        -- rewrite Hothers by done.
           destruct (remaining f i) as [|y rest] eqn:Hrem; [constructor|].
           assert (in_order key reverse x y) as Hxy.
           { apply (Hord i y rest); [|done].
             apply list_elem_of_filter. split; [by rewrite Hrem|done]. }
           specialize (Hin i). rewrite Hrem in Hin.
           apply StronglySorted_inv in Hin as [_ Hrest].
           constructor; [done|].
           eapply Forall_impl; [done|]. intros z Hz. simpl in Hz.
           by eapply in_order_trans.
Qed.

(** What [collate_next] hands to the caller is the value part of what
    [collate_round] produces. *)
Lemma list_of_collate_next fuel f :
  list_of (collate_next key reverse address) fuel f
  = match list_of (collate_round key reverse address) fuel f with
    | Some (Return tr, f') => Some (Return tr.*2, f')
    | Some (Raise e, f') => Some (Raise e, f')
    | None => None
    end.
Proof.
  induction fuel as [|fuel IH] in f |- *; [done|].
  rewrite !list_of_S.
  assert (collate_next key reverse address f
          = match collate_round key reverse address f with
            | (Return (_, x), f') => (Return x, f')
            | (Raise e, f') => (Raise e, f')
            end) as -> by done.
  destruct (collate_round key reverse address f) as [[[p x]|e] f'].
  - rewrite IH.
    by destruct (list_of (collate_round key reverse address) fuel f')
      as [[[tr|e] f'']|].
  - by destruct e.
Qed.
Lemma created_remaining iterables :
  remaining (CollateCreated iterables) <$> seq 0 (length iterables)
  = iterables.
Proof.
  apply list_eq. intros i. rewrite list_lookup_fmap. simpl.
  destruct (decide (i < length iterables)%nat) as [Hi|Hi].
  - rewrite lookup_seq_lt by done. simpl.
    by destruct (lookup_lt_is_Some_2 iterables i Hi) as [l ->].
  - rewrite (lookup_ge_None_2 iterables) by lia.
    rewrite lookup_ge_None_2; [done|]. rewrite length_seq. lia.
Qed.

(** The frames a generator goes through are well formed, and what remains
    of an input is always an end part of that input. *)
Lemma reachable_ok iterables f :
  reachable key reverse address iterables f →
  frame_ok (length iterables) f
  ∧ ∀ i, remaining f i `suffix_of` default [] (iterables !! i).
Proof.
  induction 1 as [|f r f' _ [Hok Hsuffix] Hround]; [done|].
  destruct (collate_round_spec _ f _ Hok eq_refl)
    as [_ [[_ Hend]
          |(p & x & f'' & Hstep & Hok' & _ & Hpx & Hothers & _)]].
  - rewrite Hend in Hround. injection Hround as <- <-.
    split; [done|]. intros i. apply suffix_nil.
  - rewrite Hstep in Hround. injection Hround as <- <-.
    split; [done|]. intros i. destruct (decide (i = p)) as [->|Hne].
    + etrans; [|apply Hsuffix]. rewrite Hpx. by apply suffix_cons_r.
    + by rewrite Hothers.
Qed.

(** C1: for inputs that are each sorted by [key] in the direction of
    [reverse], [list(collate(...))] is a list that holds every element of
    every input exactly once (a permutation of the inputs put end to end)
    and is sorted by [key] in that direction, each element before all
    those after it. *)
Theorem collate_sorted_merge iterables :
  Forall (Sorted (in_order key reverse)) iterables →
  ∃ out,
    collate key reverse address iterables = Some (Return out, CollateFinished)
    ∧ out ≡ₚ concat iterables
    ∧ StronglySorted (in_order key reverse) out.
Proof.
  intros Hsorted.
  destruct (trace_run (length iterables) (S (length (concat iterables)))
              (CollateCreated iterables))
    as (tr & Hrun & _ & Hperm & Hord); [done|..].
  { rewrite created_remaining. lia. }
  exists tr.*2. unfold collate. rewrite list_of_collate_next, Hrun.
  split_and!; [done|by rewrite Hperm, created_remaining|].
  apply Hord. intros i. simpl.
  destruct (iterables !! i) as [l|] eqn:Hl; [|constructor]. simpl.
  apply (@Sorted_StronglySorted _ _ in_order_trans).
  rewrite Forall_forall in Hsorted. apply Hsorted.
  by eapply list_elem_of_lookup_2.
Qed.

(** C8: whatever addresses the wrappers have (they decide between heads
    with equal keys), the values that [collate] takes from the wrapper of
    input [i] come out in the order they have in that input, and they are
    all of that input: the output restricted to the values selected from
    wrapper [i] is input [i]. *)
Theorem collate_stable iterables :
  ∃ tr,
    collate_trace key reverse address iterables
    = Some (Return tr, CollateFinished)
    ∧ collate key reverse address iterables
      = Some (Return tr.*2, CollateFinished)
    ∧ ∀ i, (filter (λ e, e.1 = i) tr).*2 = default [] (iterables !! i).
Proof.
  destruct (trace_run (length iterables) (S (length (concat iterables)))
              (CollateCreated iterables))
    as (tr & Hrun & Hproj & _); [done|..].
  { rewrite created_remaining. lia. }
  exists tr. unfold collate, collate_trace.
  by rewrite list_of_collate_next, Hrun.
Qed.

(** C9: in every frame a generator goes through, the live set is the set
    of the inputs of which something remains, in the order of the inputs,
    so that an input that was empty at the start is never in it (and no
    value of a whole run is selected from it) and an input leaves it with
    its last element, for good; a round selects a member of the live set
    and takes its first remaining element, and the generator ends, with
    StopIteration and nothing else, exactly in the rounds that find the
    live set empty. *)
Theorem collate_live_set iterables f :
  reachable key reverse address iterables f →
  let now := filter (λ i, remaining f i ≠ []) (seq 0 (length iterables)) in
  live f = Return now
  ∧ (∀ i, remaining f i `suffix_of` default [] (iterables !! i))
  ∧ (∀ i, default [] (iterables !! i) = [] → i ∉ now)
  ∧ (∀ i tr f', default [] (iterables !! i) = [] →
       collate_trace key reverse address iterables = Some (Return tr, f') →
       i ∉ tr.*1)
  ∧ match collate_round key reverse address f with
    | (Return (p, x), f') =>
        p ∈ now
        ∧ remaining f p = x :: remaining f' p
        ∧ (∀ i, i ≠ p → remaining f' i = remaining f i)
        ∧ (∀ i, remaining f i = [] → remaining f' i = [])
    | (Raise e, f') =>
        e = StopIteration ∧ f' = CollateFinished ∧ now = []
    end.
Proof.
  intros [Hok Hsuffix]%reachable_ok now.
  assert (live f = Return now) as Hlive
    by apply (collate_round_spec _ f now Hok eq_refl).
  assert (∀ i, default [] (iterables !! i) = [] → i ∉ now) as Hempty.
  { intros i Hi [Hne _]%list_elem_of_filter. apply Hne.
    specialize (Hsuffix i). rewrite Hi in Hsuffix.
    by apply suffix_nil_inv in Hsuffix. }
  assert (∀ i tr f', default [] (iterables !! i) = [] →
            collate_trace key reverse address iterables
            = Some (Return tr, f') →
            i ∉ tr.*1) as Hnever.
  { intros i tr f' Hi Htr.
    destruct (trace_run (length iterables) (S (length (concat iterables)))
                (CollateCreated iterables))
      as (tr' & Hrun & Hproj & _); [done|..].
    { rewrite created_remaining. lia. }
    unfold collate_trace in Htr. rewrite Hrun in Htr. injection Htr as <- <-.
    specialize (Hproj i). simpl in Hproj. rewrite Hi in Hproj.
    apply fmap_nil_inv in Hproj.
    intros [[q y] [-> Hin]]%list_elem_of_fmap.
    by apply (filter_nil_not_elem_of _ _ _ Hproj) in Hin. }
  do 4 (split; [done|]).
  destruct (collate_round_spec _ f now Hok eq_refl)
    as [_ [[Hnil ->]|(p & x & f' & -> & _ & Hp & Hpx & Hothers & _)]];
    [done|].
  do 3 (split; [done|]).
  intros i Hi. rewrite Hothers; [done|]. intros ->. by rewrite Hi in Hpx.
Qed.
End CollateFacts.

(** C1 at the inputs [[1, 3, 4, 26]], [[1, 26]] and [[10, 11, 12]], each
    in ascending order, with the identity as key. *)
Lemma collate_sorted_merge_witness :
  Forall (Sorted (in_order id false))
    [[1; 3; 4; 26]; [1; 26]; [10; 11; 12]]
  ∧ ∃ out,
      collate id false Z.of_nat [[1; 3; 4; 26]; [1; 26]; [10; 11; 12]]
      = Some (Return out, CollateFinished)
      ∧ out ≡ₚ concat [[1; 3; 4; 26]; [1; 26]; [10; 11; 12]]
      ∧ StronglySorted (in_order id false) out.
Proof.
  assert (Forall (Sorted (in_order id false))
            [[1; 3; 4; 26]; [1; 26]; [10; 11; 12]]) as Hsorted.
  { repeat constructor; unfold in_order; simpl; lia. }
  split; [exact Hsorted|].
  exact (collate_sorted_merge id false Z.of_nat _ Hsorted).
Defined.

(** C9 at the frame in which [collate([1, 2], [])] is parked after its
    first value. *)
Lemma collate_live_set_witness :
  reachable id false Z.of_nat [[1; 2]; []]
    (CollateSuspended [Peekable [2] None; Peekable [] None] [0%nat])
  ∧ live (CollateSuspended [Peekable [2] None; Peekable [] None] [0%nat])
    = Return [0%nat]
  ∧ (∀ i, remaining
            (CollateSuspended [Peekable [2] None; Peekable [] None] [0%nat]) i
          `suffix_of` default [] ([[1; 2]; []] !! i)).
Proof.
  assert (reachable id false Z.of_nat [[1; 2]; []]
            (CollateSuspended [Peekable [2] None; Peekable [] None] [0%nat]))
    as Hreach.
  { eapply reachable_round; [apply reachable_created|reflexivity]. }
  split; [exact Hreach|].
  split.
  - exact (proj1 (collate_live_set id false Z.of_nat _ _ Hreach)).
  - exact (proj1 (proj2 (collate_live_set id false Z.of_nat _ _ Hreach))).
Defined.

(** ** The examples of the docstrings

    (The docstring of [chunked] prints [(8,)] for its last group; the
    group is [(7,)].) *)

Example chunked_example :
  chunked (Val <$> [1; 2; 3; 4; 5; 6; 7]) 3
  = Some (Return [Val <$> [1; 2; 3]; Val <$> [4; 5; 6]; Val <$> [7]],
          (ChunkedFinished, [])).
Proof. reflexivity. Qed.

Example first_docstring :
  first _marker (Val <$> [2; 3; 4]) = (Return (Val 2), Val <$> [3; 4])
  ∧ first (Val 0) [] = (Return (Val 0), [])
  ∧ first (A:=Z) _marker [] = (Raise ValueError, []).
Proof. done. Qed.

Example peekable_docstring :
  calls [true; true; false; true; false; true] (__init__ [0; 1])
  = ([Return 0; Return 0; Return 0; Return 1; Return 1;
      Raise StopIteration],
     Peekable [] None).
Proof. reflexivity. Qed.

(** [collate('ACDZ', 'AZ', 'JKL')], the letters by their rank in the
    alphabet, and a merge of two descending inputs with [reverse=True]. *)
Example collate_docstring :
  collate id false Z.of_nat [[1; 3; 4; 26]; [1; 26]; [10; 11; 12]]
  = Some (Return [1; 1; 3; 4; 10; 11; 12; 26; 26], CollateFinished).
Proof. reflexivity. Qed.

Example collate_reverse :
  collate id true Z.of_nat [[5; 3; 1]; []; [6; 3; 3; 0]]
  = Some (Return [6; 5; 3; 3; 3; 1; 0], CollateFinished).
Proof. reflexivity. Qed.

(** Outside of C2, whose sources are made of values of the caller's: the
    sentinel itself, passed in as an element, is taken for padding. *)
Example chunked_sentinel_in_source :
  chunked [Val 1; _marker] 2 = Some (Return [[Val 1]], (ChunkedFinished, [])).
Proof. reflexivity. Qed.

(** * More of the code

    ** Wrappers as iterators *)

Section PeekableMore.
Context {T : Type}.
Implicit Types (self : peekable T) (x : T) (l xs : list T).

Lemma pending_nil self : pending self = [] → self = Peekable [] None.
Proof. by peekable_cases self. Qed.

Lemma list_of_next fuel self :
  (length (pending self) < fuel)%nat →
  list_of next fuel self = Some (Return (pending self), Peekable [] None).
Proof.
  induction fuel as [|fuel IH] in self |- *; intros Hfuel; [lia|].
  rewrite list_of_S. pose proof (next_pending self) as Hnext.
  destruct (pending self) as [|x rest] eqn:Hpending.
  - rewrite Hnext. by rewrite (pending_nil self Hpending).
  - rewrite Hnext, IH; [done|].
    change (pending (Peekable rest None)) with rest.
    change (length (x :: rest)) with (S (length rest)) in Hfuel. lia.
Qed.

(** X2: iterating over a wrapper hands out exactly what is pending, the cached
    element first, and leaves the wrapper exhausted with nothing cached:
    [list(peekable(xs))] is [xs], and no [peek] or truth test done before
    changes that. *)
Theorem list_of_wrapper self xs :
  list_peekable self = Some (Return (pending self), Peekable [] None)
  ∧ list_peekable (__init__ xs) = Some (Return xs, Peekable [] None)
  ∧ list_peekable (peek (__init__ xs)).2
    = Some (Return xs, Peekable [] None)
  ∧ list_peekable (__nonzero__ (__init__ xs)).2
    = Some (Return xs, Peekable [] None).
Proof.
  assert (∀ self', list_peekable self'
                   = Some (Return (pending self'), Peekable [] None)) as H.
  { intros self'. unfold list_peekable, __iter__. cbv beta iota.
    apply list_of_next. lia. }
  split_and!; rewrite H; [done|done|by destruct xs..].
Qed.

Lemma cursor_cons (w : bool) which l :
  cursor (w :: which) l
  = ((match l with [] => Raise StopIteration | x :: _ => Return x end)
       :: (cursor which (if w then l else tail l)).1,
     (cursor which (if w then l else tail l)).2).
Proof. simpl. by destruct (cursor which (if w then l else tail l)). Qed.

Lemma calls_cons (w : bool) which self :
  calls (w :: which) self
  = (((if w then peek else next) self).1
       :: (calls which ((if w then peek else next) self).2).1,
     (calls which ((if w then peek else next) self).2).2).
Proof.
  simpl. destruct ((if w then peek else next) self) as [o self'].
  simpl. by destruct (calls which self').
Qed.

(** X1: whatever sequence of [peek()] and [next()] calls a caller makes, the
    wrapper answers like a read cursor on its pending elements: both
    calls show the element at the cursor (or raise StopIteration at the
    end), and only [next()] moves the cursor. *)
Theorem calls_as_cursor (which : list bool) self :
  (calls which self).1 = (cursor which (pending self)).1
  ∧ pending (calls which self).2 = (cursor which (pending self)).2.
Proof.
  induction which as [|w which IH] in self |- *; [done|].
  rewrite calls_cons, cursor_cons. simpl.
  assert (((if w then peek else next) self).1
          = match pending self with
            | [] => Raise StopIteration
            | x :: _ => Return x
            end
          ∧ pending ((if w then peek else next) self).2
            = if w then pending self else tail (pending self)) as [Ho Hp].
  { destruct w; by peekable_cases self. }
  destruct (IH ((if w then peek else next) self).2) as [IH1 IH2].
  by rewrite Ho, IH1, IH2, Hp.
Qed.
End PeekableMore.

Section FirstMore.
Context {A : Type}.
Implicit Types (default x : value A) (self : peekable (value A)).

(** X3: [first] on a wrapper (whose [iter] is the wrapper and whose [next] is
    the method [next]) returns the element that [peek] shows, cached or
    not, and moves the wrapper past it; on a wrapper with nothing pending
    it falls back on the default, or raises ValueError without one, and
    leaves the wrapper as it is.  On an iterator over a sequence it is
    [first] as above. *)
Theorem first_of_wrapper default self :
  first_from next default self
  = match pending self with
    | x :: rest => (Return x, Peekable rest None)
    | [] => (if is_marker default then Raise ValueError else Return default,
             self)
    end
  ∧ ((first_from next default self).1 = (peek self).1
     ∨ ¬ returns (peek self).1)
  ∧ ∀ iterable, first_from it_next default iterable = first default iterable.
Proof.
  split_and!; [| |done].
  - unfold first_from. pose proof (next_pending self) as Hnext.
    destruct (pending self); rewrite Hnext; [|done].
    by destruct (is_marker default).
  - peekable_cases self; simpl; first [by left|right; by intros ?].
Qed.
End FirstMore.

(** ** More on chunked *)

Section ChunkedMore.
Context {A : Type}.
Implicit Types (x : value A) (it l : list (value A)).
Implicit Types (g : list (value A)) (S : list A).

(** Groups that concatenate to [S], all of [k] elements but a non-empty
    last one of at most [k], are the slices of [S] at the multiples of
    [k], and there are as few of them as can hold [S]. *)
Lemma groups_by_position {B} (k : nat) (groups : list (list B)) (S : list B) :
  concat groups = S →
  (∀ i (g : list B), groups !! i = Some g → (i + 1 < length groups)%nat →
     length g = k) →
  (∀ g : list B, last groups = Some g → (1 ≤ length g ≤ k)%nat) →
  (∀ i (g : list B), groups !! i = Some g → g = take k (drop (i * k) S))
  ∧ (length S ≤ length groups * k)%nat
  ∧ (groups ≠ [] → (length groups * k < length S + k)%nat).
Proof.
  induction groups as [|g0 groups IH] in S |- *; intros <- Hinit Hlast.
  { split_and!; [by intros i g; rewrite lookup_nil|simpl; lia|done]. }
  destruct (decide (groups = [])) as [->|Hne].
  - simpl. rewrite app_nil_r.
    destruct (Hlast g0) as [? ?]; [done|].
    split_and!; [|lia|intros _; lia].
    intros [|i] g Hg; simpl in Hg; [|by rewrite lookup_nil in Hg].
    injection Hg as <-. simpl. by rewrite drop_0, take_ge.
  - assert (length g0 = k) as Hg0.
    { apply (Hinit 0%nat); [done|]. destruct groups; [done|simpl; lia]. }
    destruct (IH (concat groups) eq_refl) as (IHpos & IHle & IHlt).
    { intros i g Hg Hi. apply (Hinit (S i)); [done|simpl; lia]. }
    { intros g Hg. apply Hlast. rewrite last_cons, Hg. done. }
    specialize (IHlt Hne). rewrite concat_cons, length_app. simpl.
    split_and!; [|lia|intros _; lia].
    intros [|i] g Hg; simpl in Hg.
    + injection Hg as <-. simpl. by rewrite drop_0, take_app_length'.
    + rewrite (IHpos i g Hg).
      replace (S i * k)%nat with (k + i * k)%nat by lia.
      rewrite <- drop_drop. by rewrite drop_app_length'.
Qed.

(** The groups for a source of values of the caller's, in [nat]. *)
Lemma chunked_values (S : list A) (n : Z) :
  0 < n ≤ PY_SSIZE_T_MAX →
  ∃ groups : list (list A),
    chunked (Val <$> S) n
    = Some (Return (fmap (M:=list) Val <$> groups), (ChunkedFinished, []))
    ∧ concat groups = S
    ∧ (∀ i (g : list A), groups !! i = Some g →
         (i + 1 < length groups)%nat → length g = Z.to_nat n)
    ∧ (∀ g : list A, last groups = Some g →
         (1 ≤ length g ≤ Z.to_nat n)%nat).
Proof.
  intros Hn.
  destruct (chunked_sentinel_free (Val <$> S) n Hn (values_no_marker S))
    as (groups' & Hrun & Hcat & Hinit & Hlast & _ & Hno).
  destruct (no_marker_groups groups' Hno) as [groups ->].
  exists groups. split_and!; [done|..].
  - rewrite concat_values in Hcat.
    by apply (list_fmap_eq_inj Val Val_inj) in Hcat.
  - intros i g0 Hi Hlt.
    assert (Z.of_nat (length (Val <$> g0)) = n) as Hlen.
    { apply (Hinit i).
      + by rewrite list_lookup_fmap, Hi.
      + by rewrite length_fmap. }
    rewrite length_fmap in Hlen. lia.
  - intros g0 Hg.
    assert (1 ≤ Z.of_nat (length (Val <$> g0)) ≤ n) as Hlen.
    { apply Hlast. by rewrite fmap_last, Hg. }
    rewrite length_fmap in Hlen. lia.
Qed.

(** X4: for a positive [n] that fits the index type, group number [i] of
    [chunked(S, n)] is the slice
    of [S] that starts at position [i * n] and has [n] elements (fewer at
    the end of [S]), for every [i] with [i * n] inside [S], and there is
    no other group: as many groups as [len(S) / n], rounded up. *)
Theorem chunked_by_position (S : list A) (n : Z) :
  0 < n ≤ PY_SSIZE_T_MAX →
  ∃ groups : list (list A),
    chunked (Val <$> S) n
    = Some (Return (fmap (M:=list) Val <$> groups), (ChunkedFinished, []))
    ∧ (∀ i, groups !! i
            = if decide (i * Z.to_nat n < length S)%nat
              then Some (take (Z.to_nat n) (drop (i * Z.to_nat n) S))
              else None)
    ∧ Z.of_nat (length groups) = (Z.of_nat (length S) + n - 1) / n.
Proof.
  intros Hn.
  destruct (chunked_values S n Hn) as (groups & Hrun & Hcat & Hinit & Hlast).
  destruct (groups_by_position (Z.to_nat n) groups S Hcat Hinit Hlast)
    as (Hpos & Hle & Hlt).
  exists groups. split_and!; [done|..].
  - intros i. destruct (groups !! i) as [g|] eqn:Hg.
    + rewrite decide_True; [by rewrite (Hpos i g Hg)|].
      apply lookup_lt_Some in Hg.
      assert (groups ≠ []) as Hne by (intros ->; simpl in Hg; lia).
      specialize (Hlt Hne). nia.
    + apply lookup_ge_None in Hg. rewrite decide_False; [done|]. nia.
  - apply (Z.div_unique_pos _ _ _
      (Z.of_nat (length S) + n - 1 - n * Z.of_nat (length groups))); [|lia].
    destruct (decide (groups = [])) as [->|Hne].
    + simpl in *. lia.
    + specialize (Hlt Hne). nia.
Qed.
End ChunkedMore.

(** [chunked([1, 2, 3, 4, 5, 6, 7], 3)] by positions. *)
Lemma chunked_by_position_witness :
  ∃ groups : list (list Z),
    chunked (Val <$> [1; 2; 3; 4; 5; 6; 7]) 3
    = Some (Return (fmap (M:=list) Val <$> groups), (ChunkedFinished, []))
    ∧ (∀ i, groups !! i
            = if decide (i * Z.to_nat 3 < length [1; 2; 3; 4; 5; 6; 7])%nat
              then Some (take (Z.to_nat 3)
                           (drop (i * Z.to_nat 3) [1; 2; 3; 4; 5; 6; 7]))
              else None)
    ∧ Z.of_nat (length groups)
      = (Z.of_nat (length [1; 2; 3; 4; 5; 6; 7]) + 3 - 1) / 3.
Proof. apply (chunked_by_position [1; 2; 3; 4; 5; 6; 7] 3). done. Defined.

Section ChunkedLazy.
Context {A : Type}.
Implicit Types (x : value A) (it l : list (value A)).
Implicit Types (g : list (value A)) (S : list A).

Lemma chunked_prefix_run (k j : nat) S :
  (1 ≤ k)%nat → (j * k ≤ length S)%nat →
  call_times chunked_next j
    (ChunkedSuspended (Izip (replicate k true) k), Val <$> S)
  = ((λ i, Return (Val <$> take k (drop (i * k) S))) <$> seq 0 j,
     (ChunkedSuspended (Izip (replicate k true) k), Val <$> drop (j * k) S)).
Proof.
  intros Hk. induction j as [|j IH] in S |- *; intros Hj; [done|].
  rewrite call_times_S, chunked_next_suspended.
  rewrite chunked_loop_full;
    [|rewrite length_fmap; lia|apply values_no_marker].
  cbn [fst snd]. rewrite <- fmap_take, <- fmap_drop.
  rewrite IH by (rewrite length_drop; lia).
  cbn [fst snd]. f_equal.
  - rewrite <- cons_seq, fmap_cons, <- fmap_S_seq, <- list_fmap_compose.
    f_equal. apply list_fmap_ext. intros _ i _. simpl.
    by rewrite drop_drop.
  - by rewrite drop_drop.
Qed.

(** X5: [chunked] is lazy, for a positive [n] that fits the index type:
    as long as the source has [n] more elements, each
    resumption takes exactly [n] elements from it and yields them as a
    group; after [j] groups the source iterator stands at position
    [j * n], whatever comes after. *)
Theorem chunked_lazy S (n : Z) (j : nat) :
  0 < n ≤ PY_SSIZE_T_MAX → (j * Z.to_nat n ≤ length S)%nat →
  (call_times chunked_next j (ChunkedCreated n, Val <$> S)).1
  = (λ i, Return (Val <$> take (Z.to_nat n) (drop (i * Z.to_nat n) S)))
      <$> seq 0 j
  ∧ (call_times chunked_next j (ChunkedCreated n, Val <$> S)).2.2
    = Val <$> drop (j * Z.to_nat n) S.
Proof.
  intros Hn Hj. destruct j as [|j]; [done|].
  pose proof index_range as Hrange.
  assert (call_times chunked_next (Datatypes.S j)
            (ChunkedCreated n, Val <$> S)
          = call_times chunked_next (Datatypes.S j)
              (ChunkedSuspended
                 (Izip (replicate (Z.to_nat n) true) (Z.to_nat n)),
               Val <$> S)) as ->.
  { rewrite !call_times_S, chunked_next_created by lia. done. }
  rewrite chunked_prefix_run by (done || lia). done.
Qed.

Lemma filter_markers_any l k :
  filter (λ x, is_marker x = false) (l ++ replicate k _marker)
  = filter (λ x, is_marker x = false) l.
Proof.
  rewrite filter_app.
  replace (filter _ (replicate k _marker)) with (@nil (value A)).
  - by rewrite app_nil_r.
  - induction k as [|k IH]; [done|]. simpl. by rewrite filter_cons_False.
Qed.

(** A turn of the loop on any source with enough elements: the group is
    the next [k] elements, without the sentinels among them when the last
    of them is the sentinel. *)
Lemma chunked_loop_full_any k it :
  (1 ≤ k ≤ length it)%nat →
  ∃ g, chunked_loop (Izip (replicate k true) k) it
       = (Return g,
          (ChunkedSuspended (Izip (replicate k true) k), drop k it))
       ∧ (g = take k it ∨ g = filter (λ x, is_marker x = false) (take k it)).
Proof.
  intros Hk. unfold chunked_loop, izip_longest_next. simpl.
  rewrite length_replicate.
  destruct (Nat.eqb_spec k 0) as [?|_]; [lia|].
  rewrite fill_full by lia.
  destruct (last (take k it)) as [x|] eqn:Hlast.
  - destruct (is_marker x); eauto.
  - apply last_None in Hlast. apply (f_equal length) in Hlast.
    rewrite length_take in Hlast. simpl in Hlast. lia.
Qed.

Lemma chunked_loop_short_any k l j :
  (1 ≤ length l)%nat → (1 ≤ j)%nat → k = (length l + j)%nat →
  chunked_loop (Izip (replicate k true) k) l
  = (Return (filter (λ x, is_marker x = false) l),
     (ChunkedSuspended
        (Izip (replicate (length l) true ++ replicate j false) (length l)),
      [])).
Proof.
  intros Hl Hj ->. unfold chunked_loop, izip_longest_next. simpl.
  rewrite length_replicate.
  destruct (Nat.eqb_spec (length l + j) 0) as [?|_]; [lia|].
  rewrite replicate_add.
  replace (length l + j)%nat with (j + length l)%nat at 1 by lia.
  rewrite fill_short by done.
  rewrite last_app_replicate by done. simpl.
  by rewrite filter_markers_any.
Qed.

Lemma filter_sublist_of_filter l g :
  g = l ∨ g = filter (λ x, is_marker x = false) l →
  filter (λ x, is_marker x = false) g = filter (λ x, is_marker x = false) l
  ∧ g `sublist_of` l.
Proof.
  intros [->| ->]; [done|]. split; [|apply sublist_filter].
  rewrite list_filter_filter. apply list_filter_iff. intros x. tauto.
Qed.

Lemma chunked_run_any k fuel it :
  (1 ≤ k)%nat → (length it < fuel)%nat →
  ∃ groups,
    list_of chunked_next fuel
      (ChunkedSuspended (Izip (replicate k true) k), it)
    = Some (Return groups, (ChunkedFinished, []))
    ∧ filter (λ x, is_marker x = false) (concat groups)
      = filter (λ x, is_marker x = false) it
    ∧ concat groups `sublist_of` it
    ∧ Forall (λ g, length g ≤ k)%nat groups.
Proof.
  intros Hk. induction fuel as [|fuel IH] in it |- *; intros Hfuel; [lia|].
  rewrite list_of_S, chunked_next_suspended.
  destruct (decide (it = [])) as [->|Hne].
  { pose proof (chunked_loop_done (A:=A) (replicate k true)) as H.
    rewrite active_replicate_true in H. rewrite H by done.
    exists []. by split_and!. }
  assert (1 ≤ length it)%nat as Hlen by (destruct it; simpl; [done|lia]).
  destruct (decide (k ≤ length it)%nat) as [Hfull|Hshort].
  - destruct (chunked_loop_full_any k it) as (g & -> & Hg); [lia|].
    apply filter_sublist_of_filter in Hg as [Hfilter Hsub].
    destruct (IH (drop k it)) as (groups & Hrun & Hcat & Hsubs & Hall).
    { rewrite length_drop. lia. }
    exists (g :: groups). split_and!.
    + cbv beta iota. by rewrite Hrun.
    + rewrite concat_cons, filter_app, Hfilter, Hcat, <- filter_app.
      by rewrite take_drop.
    + rewrite concat_cons, <- (take_drop k it). by apply sublist_app.
    + constructor; [|done]. apply sublist_length in Hsub.
      rewrite length_take in Hsub. lia.
  - rewrite (chunked_loop_short_any k it (k - length it)) by (done || lia).
    destruct fuel as [|fuel]; [lia|].
    rewrite list_of_S, chunked_next_suspended.
    pose proof (chunked_loop_done (A:=A)
      (replicate (length it) true ++ replicate (k - length it) false)) as H.
    rewrite active_app, active_replicate_true, active_replicate_false,
      Nat.add_0_r in H.
    rewrite H by done.
    exists [filter (λ x, is_marker x = false) it]. split_and!.
    + done.
    + simpl. rewrite app_nil_r, list_filter_filter.
      apply list_filter_iff. intros x. tauto.
    + simpl. rewrite app_nil_r. apply sublist_filter.
    + constructor; [|constructor].
      pose proof (length_filter (λ x, is_marker x = false) it). lia.
Qed.

(** X6: whatever the source holds, the sentinel included, [chunked] with a
    positive [n] that fits the index type ends, reads the source to its end, and yields groups of
    at most [n] elements that hold, in the order of the source, every
    element of the source other than the sentinel: all that can be
    missing from the groups are sentinels. *)
Theorem chunked_any_source (S : list (value A)) (n : Z) :
  0 < n ≤ PY_SSIZE_T_MAX →
  ∃ groups,
    chunked S n = Some (Return groups, (ChunkedFinished, []))
    ∧ filter (λ x, is_marker x = false) (concat groups)
      = filter (λ x, is_marker x = false) S
    ∧ concat groups `sublist_of` S
    ∧ Forall (λ g, Z.of_nat (length g) ≤ n) groups.
Proof.
  intros Hn. unfold chunked. pose proof index_range as Hrange.
  destruct (chunked_run_any (Z.to_nat n) (Datatypes.S (length S)) S)
    as (groups & Hrun & Hfilter & Hsub & Hall); [lia|lia|].
  exists groups. split_and!; [|done|done|].
  { rewrite list_of_chunked_created by lia. by rewrite <- Hrun. }
  eapply Forall_impl; [done|]. intros g Hg. simpl in Hg. lia.
Qed.
End ChunkedLazy.

(** The first two groups of [chunked([1, 2, 3, 4, 5, 6, 7], 3)]. *)
Lemma chunked_lazy_witness :
  (call_times chunked_next 2
     (ChunkedCreated 3, Val <$> [1; 2; 3; 4; 5; 6; 7])).1
  = (λ i, Return (Val <$> take (Z.to_nat 3)
                    (drop (i * Z.to_nat 3) [1; 2; 3; 4; 5; 6; 7])))
      <$> seq 0 2
  ∧ (call_times chunked_next 2
       (ChunkedCreated 3, Val <$> [1; 2; 3; 4; 5; 6; 7])).2.2
    = Val <$> drop (2 * Z.to_nat 3) [1; 2; 3; 4; 5; 6; 7].
Proof.
  apply (chunked_lazy [1; 2; 3; 4; 5; 6; 7] 3 2); [done|simpl; lia].
Defined.

(** A source that holds the sentinel, in groups of two. *)
Lemma chunked_any_source_witness :
  ∃ groups,
    chunked [Val 1; _marker; Val 2] 2
    = Some (Return groups, (ChunkedFinished, []))
    ∧ filter (λ x, is_marker x = false) (concat groups)
      = filter (λ x, is_marker x = false) [Val 1; _marker; Val 2]
    ∧ concat groups `sublist_of` [Val 1; _marker; Val 2]
    ∧ Forall (λ g : list (value Z), Z.of_nat (length g) ≤ 2) groups.
Proof. apply (chunked_any_source [Val 1; _marker; Val 2] 2). done. Defined.

(** ** More on collate *)

Section CollateMore.
Context {T : Type}.
Variable key : T → Z.
Variable reverse : bool.
Variable address : nat → Z.
Implicit Types (self : peekable T) (heap : list (peekable T)).
Implicit Types (x y : T) (p q i : nat) (peekables refs : list nat).
Implicit Types (items : list (Z * nat)) (f : collate_frame (T:=T)).
Implicit Types (iterables : list (list T)) (l out : list T).

Lemma sublist_same_length {B} (l1 l2 : list B) :
  l1 `sublist_of` l2 → (length l2 ≤ length l1)%nat → l1 = l2.
Proof.
  induction 1 as [|b l1 l2 Hsub IH|b l1 l2 Hsub IH]; simpl; intros Hlen.
  - done.
  - f_equal. apply IH. lia.
  - apply sublist_length in Hsub. lia.
Qed.

(** X7: [collate] asks nothing of its inputs: sorted or not, it ends without
    an exception, and its output holds every element of every input
    exactly once and has each input as a subsequence. *)
Theorem collate_any_inputs iterables :
  ∃ out,
    collate key reverse address iterables = Some (Return out, CollateFinished)
    ∧ out ≡ₚ concat iterables
    ∧ Forall (λ l, l `sublist_of` out) iterables.
Proof.
  destruct (trace_run key reverse address (length iterables)
              (S (length (concat iterables))) (CollateCreated iterables))
    as (tr & Hrun & Hproj & Hperm & _); [done|..].
  { rewrite created_remaining. lia. }
  exists tr.*2. unfold collate. rewrite list_of_collate_next, Hrun.
  split_and!; [done|by rewrite Hperm, created_remaining|].
  apply Forall_forall. intros l Hl.
  apply list_elem_of_lookup in Hl as [i Hi].
  specialize (Hproj i). simpl in Hproj. rewrite Hi in Hproj. simpl in Hproj.
  rewrite <- Hproj. apply fmap_sublist, sublist_filter.
Qed.

Lemma concat_replicate_nil (k : nat) : concat (replicate k (@nil T)) = [].
Proof. induction k as [|k IH]; [done|]. simpl. by rewrite IH. Qed.

(** X8: merging one input with any number of empty ones gives that input
    back as it is, sorted or not. *)
Theorem collate_single (k1 k2 : nat) l :
  collate key reverse address (replicate k1 [] ++ l :: replicate k2 [])
  = Some (Return l, CollateFinished).
Proof.
  set (iterables := replicate k1 [] ++ l :: replicate k2 []).
  destruct (trace_run key reverse address (length iterables)
              (S (length (concat iterables))) (CollateCreated iterables))
    as (tr & Hrun & Hproj & Hperm & _); [done|..].
  { rewrite created_remaining. lia. }
  unfold collate. rewrite list_of_collate_next, Hrun. do 2 f_equal.
  assert (concat iterables = l) as Hcat.
  { unfold iterables.
    by rewrite concat_app, concat_cons, !concat_replicate_nil, app_nil_r. }
  rewrite created_remaining, Hcat in Hperm.
  specialize (Hproj k1). simpl in Hproj. unfold iterables in Hproj.
  rewrite lookup_app_r, length_replicate, Nat.sub_diag in Hproj
    by (rewrite length_replicate; lia).
  simpl in Hproj.
  assert (filter (λ e, e.1 = k1) tr = tr) as Hall.
  { apply sublist_same_length; [apply sublist_filter|].
    apply Permutation_length in Hperm. rewrite length_fmap in Hperm.
    rewrite <- (length_fmap snd (filter _ tr)), Hproj. lia. }
  rewrite Hall in Hproj. by rewrite Hproj.
Qed.

(** The frames other than the finished one, as the arguments of the loop
    that a resumption runs. *)
Lemma round_as_loop n f :
  frame_ok n f → f ≠ CollateFinished →
  ∃ heap refs,
    collate_round key reverse address f
    = collate_loop key reverse address heap refs
    ∧ (∀ p, p ∈ refs → (p < length heap)%nat)
    ∧ (∀ i, pending_of heap i = remaining f i)
    ∧ (∀ i, pending_of heap i ≠ [] → i ∈ refs).
Proof.
  intros Hok Hf. destruct f as [iterables|heap refs|]; [| |done].
  - exists (__init__ <$> iterables), (seq 0 (length iterables)).
    split_and!; [done| |intros i; by rewrite <- started_remaining|].
    + intros p Hp%elem_of_seq. rewrite length_fmap. lia.
    + intros i Hi. apply elem_of_seq.
      destruct (decide (i < length iterables)%nat); [lia|].
      exfalso. apply Hi. unfold pending_of.
      rewrite lookup_ge_None_2; [done|]. rewrite length_fmap. lia.
  - exists heap, refs. destruct Hok as (Hlen & Hsub & Hout).
    split_and!; [done| |done|].
    + intros p Hp.
      eapply elem_of_sublist in Hp; [|done]. apply elem_of_seq in Hp. lia.
    + intros i Hi. destruct (decide (i ∈ refs)); [done|].
      by rewrite Hout in Hi.
Qed.
(** The order of the tuples [(key, p)]: by key, then by address. *)
Local Abbreviation lex_le a b :=
  (a.1 < b.1 ∨ (a.1 = b.1 ∧ address a.2 ≤ address b.2)).

Lemma tuple_lt_true (a b : Z * nat) :
  tuple_lt address a b = true →
  a.1 < b.1 ∨ (a.1 = b.1 ∧ address a.2 < address b.2).
Proof.
  unfold tuple_lt. destruct (Z.eqb_spec a.1 b.1) as [E|E].
  - destruct (Nat.eqb a.2 b.2); [done|]. intros ?%Z.ltb_lt. lia.
  - intros ?%Z.ltb_lt. lia.
Qed.

Lemma tuple_lt_false (a b : Z * nat) :
  tuple_lt address a b = false → lex_le b a.
Proof.
  unfold tuple_lt. destruct (Z.eqb_spec a.1 b.1) as [E|E].
  - destruct (Nat.eqb_spec a.2 b.2) as [->|_]; [lia|].
    intros ?%Z.ltb_ge. lia.
  - intros ?%Z.ltb_ge. lia.
Qed.

Lemma min_from_lex cur items item :
  item ∈ cur :: items → lex_le (min_from address cur items) item.
Proof.
  induction items as [|item0 items IH] in cur, item |- *; simpl.
  { intros ->%list_elem_of_singleton. lia. }
  intros Hitem.
  pose proof (IH (if tuple_lt address item0 cur then item0 else cur)) as IH'.
  destruct (tuple_lt address item0 cur) eqn:Hlt.
  - apply tuple_lt_true in Hlt.
    apply elem_of_cons in Hitem as [->|[->|?]%elem_of_cons].
    + specialize (IH' item0 ltac:(left)). lia.
    + apply IH'. left.
    + apply IH'. by right.
  - apply tuple_lt_false in Hlt.
    apply elem_of_cons in Hitem as [->|[->|?]%elem_of_cons].
    + apply IH'. left.
    + specialize (IH' cur ltac:(left)). lia.
    + apply IH'. by right.
Qed.

Lemma max_from_lex cur items item :
  item ∈ cur :: items → lex_le item (max_from address cur items).
Proof.
  induction items as [|item0 items IH] in cur, item |- *; simpl.
  { intros ->%list_elem_of_singleton. lia. }
  intros Hitem.
  pose proof (IH (if tuple_lt address cur item0 then item0 else cur)) as IH'.
  destruct (tuple_lt address cur item0) eqn:Hlt.
  - apply tuple_lt_true in Hlt.
    apply elem_of_cons in Hitem as [->|[->|?]%elem_of_cons].
    + specialize (IH' item0 ltac:(left)). lia.
    + apply IH'. left.
    + apply IH'. by right.
  - apply tuple_lt_false in Hlt.
    apply elem_of_cons in Hitem as [->|[->|?]%elem_of_cons].
    + apply IH'. left.
    + specialize (IH' cur ltac:(left)). lia.
    + apply IH'. by right.
Qed.

Lemma min_or_max_lex items item sel :
  min_or_max reverse address items = Return sel → item ∈ items →
  if reverse then lex_le item sel else lex_le sel item.
Proof.
  destruct items as [|item0 items]; [done|]. unfold min_or_max.
  intros [= <-] Hitem. destruct reverse.
  - by apply max_from_lex.
  - by apply min_from_lex.
Qed.

(** The wrapper that a turn of the loop selects: no wrapper with
    something pending has a head that comes before its head in the order
    of the tuples. *)
Lemma collate_loop_select heap refs p x f' q y rest :
  (∀ p, p ∈ refs → (p < length heap)%nat) →
  collate_loop key reverse address heap refs = (Return (p, x), f') →
  q ∈ refs → pending_of heap q = y :: rest →
  if reverse then lex_le (key y, q) (key x, p)
  else lex_le (key x, p) (key y, q).
Proof.
  intros Hrefs Hloop Hq Hqy.
  destruct (kill_empties_spec refs heap Hrefs)
    as (heap1 & Hkill & Hlen & Hpend & Hcached & _).
  set (lv := filter (λ p, pending_of heap p ≠ []) refs) in *.
  assert (∀ q, q ∈ lv → cached heap1 q) as Hlive.
  { intros q' [? ?]%list_elem_of_filter. by apply Hcached. }
  destruct (heads_spec key lv heap1 Hlive) as (items & Hheads & Hitems & Hkeys).
  assert (q ∈ lv) as Hqlv.
  { apply list_elem_of_filter. split; [by rewrite Hqy|done]. }
  assert (items ≠ []) as Hne.
  { intros ->. simpl in Hitems. rewrite <- Hitems in Hqlv.
    by apply elem_of_nil in Hqlv. }
  destruct (min_or_max_spec reverse address items Hne)
    as (k & p0 & Hsel & Hin & _).
  destruct (Hkeys k p0 Hin) as (x0 & rest0 & Hpx & ->).
  assert (p0 ∈ lv) as Hp0.
  { rewrite <- Hitems. apply list_elem_of_fmap. by exists (key x0, p0). }
  destruct (Hlive p0 Hp0) as (self & Hself & _).
  assert (pending self = x0 :: rest0) as Hself_pending
    by (by rewrite <- (pending_of_lookup _ _ _ Hself)).
  pose proof (next_pending self) as Hnext. rewrite Hself_pending in Hnext.
  assert ((p, x) = (p0, x0)) as [= -> ->].
  { unfold collate_loop in Hloop. rewrite Hkill in Hloop.
    destruct lv as [|p1 lv']; [done|]. cbv beta iota in Hloop.
    rewrite Hheads, Hsel, (call_lookup _ _ _ _ Hself), Hnext in Hloop.
    by injection Hloop as <- <- _. }
  assert (∃ kq, (kq, q) ∈ items) as [kq Hkq].
  { rewrite <- Hitems in Hqlv.
    apply list_elem_of_fmap in Hqlv as [[kq q'] [? ?]].
    simpl in *. subst q'. by exists kq. }
  destruct (Hkeys kq q Hkq) as (y' & rest' & Hy' & ->).
  rewrite Hpend, Hqy in Hy'. injection Hy' as <- <-.
  apply (min_or_max_lex items (key y, q) (key x0, p0) Hsel Hkq).
Qed.

(** The same for a round of the generator. *)
Lemma collate_round_select iterables f p x f' q y rest :
  reachable key reverse address iterables f →
  collate_round key reverse address f = (Return (p, x), f') →
  remaining f q = y :: rest →
  if reverse then lex_le (key y, q) (key x, p)
  else lex_le (key x, p) (key y, q).
Proof.
  intros [Hok _]%reachable_ok Hround Hqy.
  destruct (round_as_loop (length iterables) f Hok)
    as (heap & refs & Hloop & Hrefs & Hpend & Hin); [by intros ->|].
  rewrite Hloop in Hround. rewrite <- Hpend in Hqy.
  apply (collate_loop_select heap refs p x f' q y rest Hrefs Hround);
    [|done].
  apply Hin. by rewrite Hqy.
Qed.

(** X9: in every round, sorted inputs or not, the value that is yielded is
    the head of an input, and no input has a head that comes before it in
    the order asked for: with [reverse] unset no head has a smaller key,
    with [reverse] set none has a larger one. *)
Theorem collate_yields_extremal iterables f p x f' q y rest :
  reachable key reverse address iterables f →
  collate_round key reverse address f = (Return (p, x), f') →
  remaining f q = y :: rest →
  in_order key reverse x y.
Proof.
  intros Hreach Hround Hqy.
  pose proof (collate_round_select _ _ _ _ _ _ _ _ Hreach Hround Hqy) as H.
  unfold in_order. destruct reverse; simpl in H; lia.
Qed.

(** X10: between heads with the same extremal key, the addresses of the
    wrappers decide: [min] takes the wrapper at the lowest address and,
    with [reverse] set, [max] takes the one at the highest. *)
Theorem collate_tie_break iterables f p x f' q y rest :
  reachable key reverse address iterables f →
  collate_round key reverse address f = (Return (p, x), f') →
  remaining f q = y :: rest →
  key y = key x →
  if reverse then address q ≤ address p else address p ≤ address q.
Proof.
  intros Hreach Hround Hqy Hkey.
  pose proof (collate_round_select _ _ _ _ _ _ _ _ Hreach Hround Hqy) as H.
  destruct reverse; simpl in H; lia.
Qed.
End CollateMore.

(** The first round of [collate([2, 9], [2, 5])], the first wrapper at the
    higher address: both heads have key 2, and the second wrapper is
    selected. *)
Lemma collate_yields_extremal_witness :
  collate_round id false (λ r, - Z.of_nat r)
    (CollateCreated [[2; 9]; [2; 5]])
  = (Return (1%nat, 2),
     CollateSuspended [Peekable [9] (Some 2); Peekable [5] None]
       [0%nat; 1%nat])
  ∧ in_order id false 2 2.
Proof.
  split; [reflexivity|].
  eapply (collate_yields_extremal id false (λ r, - Z.of_nat r)
            [[2; 9]; [2; 5]] (CollateCreated [[2; 9]; [2; 5]])
            1%nat 2 _ 0%nat 2 [9]);
    [apply reachable_created|reflexivity|reflexivity].
Defined.

Lemma collate_tie_break_witness :
  collate_round id false (λ r, - Z.of_nat r)
    (CollateCreated [[2; 9]; [2; 5]])
  = (Return (1%nat, 2),
     CollateSuspended [Peekable [9] (Some 2); Peekable [5] None]
       [0%nat; 1%nat])
  ∧ - Z.of_nat 1 ≤ - Z.of_nat 0.
Proof.
  split; [reflexivity|].
  eapply (collate_tie_break id false (λ r, - Z.of_nat r)
            [[2; 9]; [2; 5]] (CollateCreated [[2; 9]; [2; 5]])
            1%nat 2 _ 0%nat 2 [9]);
    [apply reachable_created|reflexivity|reflexivity|reflexivity].
Defined.

Section CollateDual.
Context {T : Type}.
Variable key : T → Z.
Variable address : nat → Z.
Implicit Types (heap : list (peekable T)) (refs : list nat).
Implicit Types (items : list (Z * nat)) (f : collate_frame (T:=T)).

Local Abbreviation neg := (λ item : Z * nat, (- item.1, item.2)).
Local Abbreviation neg_key := (λ x : T, - key x).
Local Abbreviation neg_address := (λ r : nat, - address r).

Lemma tuple_lt_neg (a b : Z * nat) :
  tuple_lt neg_address (neg a) (neg b) = tuple_lt address b a.
Proof.
  unfold tuple_lt. simpl.
  destruct (Z.eqb_spec (- a.1) (- b.1)), (Z.eqb_spec b.1 a.1); try lia.
  rewrite (Nat.eqb_sym b.2 a.2). destruct (Nat.eqb a.2 b.2); [done|].
  destruct (Z.ltb_spec (- address a.2) (- address b.2)),
    (Z.ltb_spec (address b.2) (address a.2)); (done || lia).
Qed.

Lemma min_from_neg cur items :
  min_from neg_address (neg cur) (neg <$> items)
  = neg (max_from address cur items).
Proof.
  induction items as [|item items IH] in cur |- *; [done|].
  rewrite fmap_cons. simpl min_from. simpl max_from.
  rewrite tuple_lt_neg, <- IH. by destruct (tuple_lt address cur item).
Qed.

Lemma min_or_max_neg items :
  min_or_max false neg_address (neg <$> items)
  = match min_or_max true address items with
    | Return item => Return (neg item)
    | Raise e => Raise e
    end.
Proof.
  destruct items as [|item items]; [done|].
  rewrite fmap_cons. unfold min_or_max. by rewrite min_from_neg.
Qed.

Lemma heads_neg refs heap :
  heads neg_key refs heap
  = (match (heads key refs heap).1 with
     | Return items => Return (neg <$> items)
     | Raise e => Raise e
     end,
     (heads key refs heap).2).
Proof.
  induction refs as [|p refs IH] in heap |- *; [done|].
  simpl. destruct (call peek p heap) as [[x|[]] heap']; try done.
  rewrite IH. by destruct (heads key refs heap') as [[items|e] heap''].
Qed.

Lemma collate_loop_neg heap refs :
  collate_loop neg_key false neg_address heap refs
  = collate_loop key true address heap refs.
Proof.
  unfold collate_loop.
  destruct (kill_empties refs heap) as [[[|p lv]|e] heap1]; try done.
  rewrite heads_neg.
  destruct (heads key (p :: lv) heap1) as [[items|e] heap2]; [|done].
  cbn [fst snd]. rewrite min_or_max_neg.
  by destruct (min_or_max true address items) as [[k p']|e].
Qed.

Lemma list_of_ext {S R} (m1 m2 : method S R) fuel (s : S) :
  (∀ s', m1 s' = m2 s') → list_of m1 fuel s = list_of m2 fuel s.
Proof.
  intros Hext. induction fuel as [|fuel IH] in s |- *; [done|].
  rewrite !list_of_S, Hext. destruct (m2 s) as [[x|e] s']; [|done].
  by rewrite IH.
Qed.

(** X11: [reverse=True] is [min] turned into [max] and nothing else: a merge
    with [reverse] set is the merge with [reverse] unset, the keys
    negated and the wrappers compared the other way round. *)
Theorem collate_reverse_dual (iterables : list (list T)) :
  collate key true address iterables
  = collate neg_key false neg_address iterables.
Proof.
  unfold collate. apply list_of_ext. intros f. unfold collate_next.
  assert (collate_round key true address f
          = collate_round neg_key false neg_address f) as ->; [|done].
  destruct f as [its|heap refs|]; simpl; by rewrite ?collate_loop_neg.
Qed.
End CollateDual.

Section CollateMap.
Context {T U : Type}.
Variable g : T → U.
Variable key : U → Z.
Variable reverse : bool.
Variable address : nat → Z.
Implicit Types (self : peekable T) (heap : list (peekable T)).
Implicit Types (refs : list nat) (f : collate_frame (T:=T)).
Implicit Types (iterables : list (list T)).

Lemma peek_map self :
  peek (peekable_map g self)
  = (outcome_map g (peek self).1, peekable_map g (peek self).2).
Proof. by peekable_cases self. Qed.

Lemma next_map self :
  next (peekable_map g self)
  = (outcome_map g (next self).1, peekable_map g (next self).2).
Proof. by peekable_cases self. Qed.

Lemma nonzero_map self :
  __nonzero__ (peekable_map g self)
  = ((__nonzero__ self).1, peekable_map g (__nonzero__ self).2).
Proof. by peekable_cases self. Qed.

Lemma call_map {R R'} (m : method (peekable T) R)
    (m' : method (peekable U) R') (h : outcome R → outcome R') p heap :
  (∀ self, m' (peekable_map g self)
           = (h (m self).1, peekable_map g (m self).2)) →
  (∀ e, h (Raise e) = Raise e) →
  call m' p (peekable_map g <$> heap)
  = (h (call m p heap).1, peekable_map g <$> (call m p heap).2).
Proof.
  intros Hm Hraise. unfold call. rewrite list_lookup_fmap.
  destruct (heap !! p) as [self|]; simpl; [|by rewrite Hraise].
  rewrite Hm. destruct (m self) as [o self']. simpl.
  by rewrite list_fmap_insert.
Qed.

Lemma kill_empties_map refs heap :
  kill_empties refs (peekable_map g <$> heap)
  = ((kill_empties refs heap).1,
     peekable_map g <$> (kill_empties refs heap).2).
Proof.
  induction refs as [|p refs IH] in heap |- *; [done|].
  simpl. rewrite (call_map __nonzero__ __nonzero__ id) by
    (done || apply nonzero_map).
  destruct (call __nonzero__ p heap) as [[b|e] heap1]; [|done].
  simpl. rewrite IH.
  by destruct (kill_empties refs heap1) as [[live|e] heap2].
Qed.

Lemma heads_map refs heap :
  heads key refs (peekable_map g <$> heap)
  = ((heads (key ∘ g) refs heap).1,
     peekable_map g <$> (heads (key ∘ g) refs heap).2).
Proof.
  induction refs as [|p refs IH] in heap |- *; [done|].
  simpl. rewrite (call_map peek peek (outcome_map g)) by
    (done || apply peek_map).
  destruct (call peek p heap) as [[x|[]] heap1]; try done.
  simpl. rewrite IH.
  by destruct (heads (key ∘ g) refs heap1) as [[items|e] heap2].
Qed.

Lemma collate_loop_map heap refs :
  collate_loop key reverse address (peekable_map g <$> heap) refs
  = (outcome_map (prod_map id g)
       (collate_loop (key ∘ g) reverse address heap refs).1,
     frame_map g (collate_loop (key ∘ g) reverse address heap refs).2).
Proof.
  unfold collate_loop. rewrite kill_empties_map.
  destruct (kill_empties refs heap) as [[[|p lv]|e] heap1]; try done.
  cbn [fst snd]. rewrite heads_map.
  destruct (heads (key ∘ g) (p :: lv) heap1) as [[items|e] heap2]; [|done].
  cbn [fst snd].
  destruct (min_or_max reverse address items) as [[k p']|e]; [|done].
  rewrite (call_map next next (outcome_map g)) by (done || apply next_map).
  by destruct (call next p' heap2) as [[x|e] heap3].
Qed.

Lemma collate_next_map f :
  collate_next key reverse address (frame_map g f)
  = (outcome_map g (collate_next (key ∘ g) reverse address f).1,
     frame_map g (collate_next (key ∘ g) reverse address f).2).
Proof.
  unfold collate_next.
  assert (collate_round key reverse address (frame_map g f)
          = (outcome_map (prod_map id g)
               (collate_round (key ∘ g) reverse address f).1,
             frame_map g (collate_round (key ∘ g) reverse address f).2))
    as ->.
  { destruct f as [iterables|heap refs|]; simpl; [|apply collate_loop_map|done].
    rewrite length_fmap, <- collate_loop_map. f_equal.
    rewrite <- !list_fmap_compose. by apply list_fmap_ext. }
  by destruct (collate_round (key ∘ g) reverse address f) as [[[p x]|e] f'].
Qed.

Lemma list_of_collate_map fuel f :
  list_of (collate_next key reverse address) fuel (frame_map g f)
  = match list_of (collate_next (key ∘ g) reverse address) fuel f with
    | Some (o, f') => Some (outcome_map (fmap g) o, frame_map g f')
    | None => None
    end.
Proof.
  induction fuel as [|fuel IH] in f |- *; [done|].
  rewrite !list_of_S, collate_next_map.
  destruct (collate_next (key ∘ g) reverse address f) as [[x|[]] f'];
    try done.
  cbn [fst snd outcome_map]. rewrite IH.
  by destruct (list_of (collate_next (key ∘ g) reverse address) fuel f')
    as [[[xs|e] f'']|].
Qed.

(** X12: [key] is used to compare and for nothing else: merging the images of
    the inputs under a function [g] is merging the inputs with the key
    [key(g(x))] and taking the images of the output.  Sorting decorated
    values by a part of them is a case of it. *)
Theorem collate_map iterables :
  ∃ out,
    collate (key ∘ g) reverse address iterables
    = Some (Return out, CollateFinished)
    ∧ collate key reverse address (fmap (M:=list) g <$> iterables)
      = Some (Return (g <$> out), CollateFinished).
Proof.
  destruct (trace_run (key ∘ g) reverse address (length iterables)
              (S (length (concat iterables))) (CollateCreated iterables))
    as (tr & Hrun & _); [done|..].
  { rewrite created_remaining. lia. }
  assert (collate (key ∘ g) reverse address iterables
          = Some (Return tr.*2, CollateFinished)) as Hout.
  { unfold collate. by rewrite list_of_collate_next, Hrun. }
  exists tr.*2. split; [done|].
  unfold collate in *.
  assert (length (concat (fmap (M:=list) g <$> iterables)) = length (concat iterables))
    as ->.
  { clear. induction iterables as [|l its IH]; [done|].
    rewrite fmap_cons, !concat_cons, !length_app, length_fmap, IH. done. }
  change (CollateCreated (fmap (M:=list) g <$> iterables))
    with (frame_map g (CollateCreated iterables)).
  by rewrite list_of_collate_map, Hout.
Qed.
End CollateMap.
